(** * dlimp/dataloader.py: trajectory tagging and windowed regrouping

    A shallow embedding of [src/dlimp/dataloader.py]:
    - [_add_traj_metadata], the function mapped over the enumerated stream of
      decoded trajectories (canonical length, broadcasting, composite key,
      assertions, the [_i] and [_len] fields);
    - the three lambdas handed to [group_by_window] in [make_dataset];
    - [make_dataset] itself, as the tf.data plan it builds.

    Conventions.
    - A Python dict of tensors is a [gmap string Tensor].
    - A tensor is a scalar or a stack of sub-tensors along axis 0; element
      payloads (of whatever dtype) are integers.  The size of axis 0, which
      [tf.shape(v)[0]] reads, is the number of stacked sub-tensors.
    - int64 tensor arithmetic wraps around ([wrap64]); [%] and [//] on
      tensors are floormod and floordiv, which on a positive divisor are
      [Z.modulo] and [Z.div].
    - A failing assertion is an [Err].  [_add_traj_metadata] is mapped over
      a dataset: its body runs once, while [dataset.map] traces it, and the
      Python [assert]s on the names [_i] and [_len] fail then, before any
      element flows; the three [tf.assert_equal] build operations that run
      with every element, in the order of the source text. *)

From stdpp Require Import gmap strings list fin_maps sorting.

Local Open Scope Z_scope.
Local Set Warnings "-register-all".

(** ** 64-bit integer tensors *)

Module Int64.

Definition modulus : Z := 2 ^ 64.
Definition half_modulus : Z := 2 ^ 63.

(** Two's-complement wrap-around of a mathematical integer into int64. *)
Definition wrap64 (z : Z) : Z := (z + half_modulus) mod modulus - half_modulus.

Definition in_range (z : Z) : Prop := - half_modulus <= z < half_modulus.

Definition mul (a b : Z) : Z := wrap64 (a * b).
Definition add (a b : Z) : Z := wrap64 (a + b).

(** [a % b] and [a // b] on tensors. *)
Definition floormod (a b : Z) : Z := a mod b.
Definition floordiv (a b : Z) : Z := a / b.

End Int64.

(** ** Tensors and records *)

Inductive Tensor : Type :=
| Scalar (v : Z)
| Stack (rows : list Tensor).

(** A decoded trajectory ([Dict[str, tf.Tensor]]); also a single step. *)
Abbreviation Record := (gmap string Tensor).

(** [tf.shape(v)[0] if len(v.shape) > 0 else None] *)
Definition tf_shape0 (v : Tensor) : option Z :=
  match v with
  | Scalar _ => None
  | Stack rows => Some (Z.of_nat (length rows))
  end.

Definition rows_of (v : Tensor) : list Tensor :=
  match v with
  | Scalar _ => []
  | Stack rows => rows
  end.

(** All elements of a tensor in row-major order. *)
Fixpoint flatten (v : Tensor) : list Z :=
  match v with
  | Scalar z => [z]
  | Stack rows => List.flat_map flatten rows
  end.

(** [tf.repeat(v, n)]: without an axis the input is flattened and every
    element is repeated [n] times; the result has rank 1. *)
Definition tf_repeat (v : Tensor) (n : Z) : Tensor :=
  Stack (List.flat_map (fun z => replicate (Z.to_nat n) (Scalar z)) (flatten v)).

(** [tf.repeat(v, n, axis=0)]: every sub-tensor along axis 0 is repeated [n]
    times.  The source only calls it on tensors of rank at least 1. *)
Definition tf_repeat_axis0 (v : Tensor) (n : Z) : Tensor :=
  match v with
  | Scalar z => Scalar z
  | Stack rows => Stack (List.flat_map (fun r => replicate (Z.to_nat n) r) rows)
  end.

(** [tf.reduce_max] of a Python list of integer scalars.  On the empty list
    TensorFlow builds an empty float tensor, which is no length: [None]. *)
Definition reduce_max (l : list Z) : option Z :=
  match l with
  | [] => None
  | a :: r => Some (foldr Z.max a r)
  end.

(** [tf.unique(l).y]: the distinct values in order of first occurrence. *)
Fixpoint tf_unique (l : list Z) : list Z :=
  match l with
  | [] => []
  | a :: r => a :: filter (fun b => b ≠ a) (tf_unique r)
  end.

(** ** The tagger *)

Definition _TRAJ_IDX_ENCODING_BITS : Z := 51.

Inductive error : Type :=
| EmptyReduceMax        (* no field has a leading dimension *)
| LengthMismatchError   (* first [tf.assert_equal]: the lengths are not all the same *)
| KeyOverflowError      (* second or third [tf.assert_equal]: the key does not decode *)
| ReservedFieldError.   (* [assert "_i" not in x], [assert "_len" not in x] *)

Inductive result (A : Type) : Type :=
| Ok (a : A)
| Err (e : error).
Arguments Ok {A} a.
Arguments Err {A} e.

Definition is_Ok {A} (r : result A) : Prop :=
  match r with Ok _ => True | Err _ => False end.

(** [traj_lens = {k: tf.shape(v)[0] if len(v.shape) > 0 else None ...}] *)
Definition traj_lens (x : Record) : gmap string (option Z) := tf_shape0 <$> x.

(** [[l for l in traj_lens.values() if l is not None]] *)
Definition known_lens (x : Record) : list Z :=
  omap id (map_to_list (traj_lens x)).*2.

(** [traj_len = tf.reduce_max([...])] *)
Definition canonical_length (x : Record) : option Z := reduce_max (known_lens x).

(** One iteration of [for k in x], on the entry [x[k]]; it returns the new
    [x[k]] and the new [traj_lens[k]].  The two [if]s run one after the
    other, the second on what the first left. *)
Definition broadcast_entry (traj_len : Z) (v : Tensor) : Tensor * Z :=
  let '(v1, l1) :=
    match tf_shape0 v with
    | None => (tf_repeat v traj_len, traj_len)
    | Some l => (v, l)
    end in
  if l1 =? 1 then (tf_repeat_axis0 v1 traj_len, traj_len) else (v1, l1).

(** The whole loop: an iteration reads and writes the entry of its own key
    only, so the loop is a pointwise map over the dict. *)
Definition broadcast_all (traj_len : Z) (x : Record) : gmap string (Tensor * Z) :=
  broadcast_entry traj_len <$> x.

(** [tf.cast(traj_len, tf.int64) * (2**_TRAJ_IDX_ENCODING_BITS) + i] *)
Definition composite_key (traj_len i : Z) : Z :=
  Int64.add (Int64.mul traj_len (2 ^ _TRAJ_IDX_ENCODING_BITS)) i.

(** [tf.size(tf.unique(tf.stack(list(traj_lens.values()))).y) == 1] *)
Definition lens_assert (lens : gmap string Z) : bool :=
  bool_decide (length (tf_unique (map_to_list lens).*2) = 1%nat).

(** [k % 2**51 == i] *)
Definition key_mod_assert (traj_len i : Z) : bool :=
  Int64.floormod (composite_key traj_len i) (2 ^ _TRAJ_IDX_ENCODING_BITS) =? i.

(** [k // 2**51 == tf.cast(traj_len, tf.int64)] *)
Definition key_div_assert (traj_len i : Z) : bool :=
  Int64.floordiv (composite_key traj_len i) (2 ^ _TRAJ_IDX_ENCODING_BITS) =? traj_len.

(** [assert "_i" not in x] and [assert "_len" not in x] *)
Definition reserved_assert (x : Record) : bool :=
  bool_decide (x !! "_i" = None) && bool_decide (x !! "_len" = None).

(** The first two cases arise while the function is traced: a record
    without a leading dimension has no integer length to repeat or stack,
    and the Python [assert]s look at the names of the fields.  The three
    [tf.assert_equal] run afterwards, with the element. *)
Definition _add_traj_metadata (i : Z) (x : Record) : result Record :=
  match canonical_length x with
  | None => Err EmptyReduceMax
  | Some traj_len =>
      let bx := broadcast_all traj_len x in
      let x1 : Record := fst <$> bx in
      let lens : gmap string Z := snd <$> bx in
      if negb (reserved_assert x1) then Err ReservedFieldError
      else if negb (lens_assert lens) then Err LengthMismatchError
      else if negb (key_mod_assert traj_len i) then Err KeyOverflowError
      else if negb (key_div_assert traj_len i) then Err KeyOverflowError
      else
        let x2 := <["_i" := tf_repeat (Scalar i) traj_len]> x1 in
        let x3 := <["_len" := tf_repeat (Scalar traj_len) traj_len]> x2 in
        Ok x3
  end.

(** [dataset.enumerate().map(_add_traj_metadata, ...)] on a finite stream,
    the enumeration starting at [i]; the first error ends the iteration. *)
Fixpoint enumerate_map_from (i : Z) (ds : list Record) : result (list Record) :=
  match ds with
  | [] => Ok []
  | x :: rest =>
      match _add_traj_metadata i x with
      | Err e => Err e
      | Ok y =>
          match enumerate_map_from (i + 1) rest with
          | Err e => Err e
          | Ok ys => Ok (y :: ys)
          end
      end
  end.

(** ** The tf.data primitives around the tagger

    [unbatch], [batch] and [group_by_window] belong to TensorFlow; they are
    modelled on finite streams after their documentation.  A run-time error
    of a primitive is [None]. *)

Definition leading_dims (y : Record) : list (option Z) :=
  (map_to_list (tf_shape0 <$> y)).*2.

(** Step [j] of a batched record: every component sliced at [j]. *)
Definition slice_at (y : Record) (j : nat) : Record :=
  omap (fun v => rows_of v !! j) y.

(** [Dataset.unbatch] on one element: all components must have the same
    size along axis 0. *)
Definition unbatch_record (y : Record) : option (list Record) :=
  match leading_dims y with
  | Some n :: rest =>
      if forallb (fun d => bool_decide (d = Some n)) rest
      then Some (slice_at y <$> seq 0 (Z.to_nat n))
      else None
  | _ => None
  end.

Fixpoint unbatch (ds : list Record) : option (list Record) :=
  match ds with
  | [] => Some []
  | y :: rest =>
      steps ← unbatch_record y;
      more ← unbatch rest;
      Some (steps ++ more)
  end.

(** Stacking the elements of one batch component-wise; the elements of a
    dataset all have the fields of the first one. *)
Definition stack_records (ss : list Record) : Record :=
  match ss with
  | [] => ∅
  | s0 :: _ => map_imap (fun k _ => Some (Stack (omap (fun s : Record => s !! k) ss))) s0
  end.

(** Consecutive chunks of [n] elements, a shorter last one kept. *)
Fixpoint chunks {A} (n : nat) (cur : list A) (l : list A) : list (list A) :=
  match l with
  | [] => match cur with [] => [] | _ => [cur] end
  | a :: r =>
      let cur' := cur ++ [a] in
      if (length cur' =? n)%nat then cur' :: chunks n [] r else chunks n cur' r
  end.

(** [d.batch(n)]; a batch size that is not positive is an error. *)
Definition batch (n : Z) (d : list Record) : option (list Record) :=
  if n <=? 0 then None else Some (stack_records <$> chunks (Z.to_nat n) [] d).

(** The three lambdas of the [group_by_window] call in [make_dataset]. *)

(** [lambda x: tf.cast(x["_len"], tf.int64) * (2**51) + x["_i"]] *)
Definition key_func (x : Record) : option Z :=
  match x !! "_len", x !! "_i" with
  | Some (Scalar l), Some (Scalar i) =>
      Some (Int64.add (Int64.mul l (2 ^ _TRAJ_IDX_ENCODING_BITS)) i)
  | _, _ => None
  end.

(** [lambda k, d: d.batch(k // (2**51), ...)] *)
Definition reduce_func (k : Z) (d : list Record) : option (list Record) :=
  batch (Int64.floordiv k (2 ^ _TRAJ_IDX_ENCODING_BITS)) d.

(** [lambda k: k // (2**51)] *)
Definition window_size_func (k : Z) : Z :=
  Int64.floordiv k (2 ^ _TRAJ_IDX_ENCODING_BITS).

(** The windows still open at the end of the input are reduced as they
    are, in ascending order of their keys. *)
Definition key_le (a b : Z * list Record) : Prop := a.1 <= b.1.

#[global] Instance key_le_dec : RelDecision key_le.
Proof. intros a b. unfold key_le. apply _. Defined.

Fixpoint flush_groups (groups : list (Z * list Record)) : option (list Record) :=
  match groups with
  | [] => Some []
  | (k, buf) :: rest =>
      out ← reduce_func k buf;
      outs ← flush_groups rest;
      Some (out ++ outs)
  end.

(** [Dataset.group_by_window]: every element joins the open window of its
    key; a window that reaches [window_size_func key] elements is reduced,
    emitted and closed.  [buffers] holds the open windows. *)
Fixpoint group_by_window_from (buffers : gmap Z (list Record)) (input : list Record)
  : option (list Record) :=
  match input with
  | [] => flush_groups (merge_sort key_le (map_to_list buffers))
  | s :: rest =>
      k ← key_func s;
      let w := window_size_func k in
      if w <=? 0 then None
      else
        let buf := default [] (buffers !! k) ++ [s] in
        if w <=? Z.of_nat (length buf) then
          out ← reduce_func k buf;
          outs ← group_by_window_from (delete k buffers) rest;
          Some (out ++ outs)
        else group_by_window_from (<[k := buf]> buffers) rest
  end.

Definition group_by_window (input : list Record) : option (list Record) :=
  group_by_window_from ∅ input.

(** ** [make_dataset]: the plan it builds

    [make_dataset] composes tf.data stages; the dataset it returns is the
    list of those stages in the order in which they are applied. *)

(** Which of the two transform sequences [apply_transforms] is given. *)
Inductive TransformArg : Type := traj_transforms | frame_transforms.

Inductive Stage : Type :=
| TFRecordDataset (paths : list string)
| WithOptions
| MapDecodeExample (type_spec_of : string)   (* type_spec = _get_type_spec(paths[0]) *)
| Enumerate
| MapAddTrajMetadata
| ApplyTransforms (ts : TransformArg) (deterministic : bool)
| Unbatch
| GroupByWindow
| Shuffle (buffer_size seed : Z)
| Repeat
| Batch (batch_size : Z)
| Prefetch.

Section MakeDataset.

(** [tf.random.shuffle(paths, seed=seed)] *)
Variable random_shuffle : Z -> list string -> list string.

(** [glob] is the result of [tf.io.gfile.glob(join(path, "*.tfrecord"))];
    [paths[0]] on an empty list raises: [None]. *)
Definition make_dataset (glob : list string) (seed batch_size shuffle_buffer_size : Z)
    (traj_transforms_first : bool) : option (list Stage) :=
  let paths := if 1 <? shuffle_buffer_size then random_shuffle seed glob else glob in
  match paths with
  | [] => None
  | first :: _ =>
      Some
        ([TFRecordDataset paths; WithOptions; MapDecodeExample first;
          Enumerate; MapAddTrajMetadata]
         ++ (if traj_transforms_first then [ApplyTransforms traj_transforms false] else [])
         ++ [Unbatch]
         ++ [ApplyTransforms frame_transforms (negb traj_transforms_first)]
         ++ (if negb traj_transforms_first
             then [GroupByWindow; ApplyTransforms traj_transforms false; Unbatch]
             else [])
         ++ (if 1 <? shuffle_buffer_size then [Shuffle shuffle_buffer_size seed] else [])
         ++ [Repeat; Batch batch_size; Prefetch])
  end.

End MakeDataset.

(** Reading a plan. *)

Definition is_group_by_window (st : Stage) : bool :=
  match st with GroupByWindow => true | _ => false end.

Definition is_traj_transforms (st : Stage) : bool :=
  match st with ApplyTransforms traj_transforms _ => true | _ => false end.

Definition is_unbatch (st : Stage) : bool :=
  match st with Unbatch => true | _ => false end.

Definition is_shuffle (st : Stage) : bool :=
  match st with Shuffle _ _ => true | _ => false end.

(** The stages after [# shuffle the dataset]: shuffle, repeat, batch, prefetch. *)
Definition is_output_stage (st : Stage) : bool :=
  match st with Shuffle _ _ | Repeat | Batch _ | Prefetch => true | _ => false end.

Definition count_stage (p : Stage -> bool) (plan : list Stage) : nat :=
  length (List.filter p plan).

(** A sample [random_shuffle] for the examples: rotation by the seed. *)
Definition rotate_by (seed : Z) (paths : list string) : list string :=
  rotate (Z.to_nat seed) paths.

(** Three trajectories of lengths 2, 1 and 3, fed in this order. *)
Definition scenario_stream : list Record :=
  [ {["a" := Stack [Scalar 1; Scalar 2]]};
    {["a" := Stack [Scalar 5]]};
    {["a" := Stack [Scalar 7; Scalar 8; Scalar 9]]} ].

(** The values of field [k] along a stream of steps. *)
Definition field_of_steps (k : string) (steps : list Record) : list (option Tensor) :=
  (fun s : Record => s !! k) <$> steps.

(** ** Schema probing and decoding

    Serialized bytes are modelled by what they parse to: a record of a
    tfrecord file is a [tf.train.Example], a bytes value of a feature is a
    [TensorProto]. *)

(** A serialized tensor: the number of its dtype, the sizes of its
    dimensions, and the tensor itself. *)
Record TensorProto : Type := {
  tp_dtype : Z;
  tp_dims : list Z;
  tp_value : Tensor
}.

(** [tf.TensorSpec]: a shape, in which a dimension may be [None], and a dtype. *)
Record TensorSpec : Type := {
  ts_shape : list (option Z);
  ts_dtype : Z
}.

(** [example.features.feature]: from the name of a feature to its
    [bytes_list.value]; a feature of another kind has no bytes value. *)
Abbreviation Example := (gmap string (list TensorProto)).

(** A dict comprehension or loop over the entries of a dict whose body may
    raise: the new dict if no entry raises. *)
Definition map_try {A B} (f : string -> A -> option B) (m : gmap string A)
  : option (gmap string B) :=
  if bool_decide (map_Forall (fun k a => is_Some (f k a)) m)
  then Some (map_imap f m)
  else None.

(** The body of the loop of [_get_type_spec], on the value of one feature:
    [value.bytes_list.value[0]] raises on an empty list; a shape that is not
    empty gets [None] as its first dimension. *)
Definition feature_type_spec (value : list TensorProto) : option TensorSpec :=
  match value with
  | [] => None
  | data :: _ =>
      let shape : list (option Z) := Some <$> tp_dims data in
      let shape := match shape with [] => [] | _ :: rest => None :: rest end in
      Some {| ts_shape := shape; ts_dtype := tp_dtype data |}
  end.

(** [_get_type_spec(path)], on the records of the file at [path];
    [next(iter(...))] raises on a file without records. *)
Definition _get_type_spec (file : list Example) : option (gmap string TensorSpec) :=
  match file with
  | [] => None
  | example :: _ => map_try (fun _ value => feature_type_spec value) example
  end.

(** [tf.io.parse_single_example] with a [FixedLenFeature([], tf.string)] for
    every key of the type spec: an empty dict of features is refused, and
    each feature asked for must be there with exactly one bytes value. *)
Definition parse_single_example (example : Example) (type_spec : gmap string TensorSpec)
  : option (gmap string TensorProto) :=
  if bool_decide (type_spec = ∅) then None
  else
    map_try (fun key _ => match example !! key with Some [b] => Some b | _ => None end)
            type_spec.

(** [tf.io.parse_tensor(b, out_type)] *)
Definition parse_tensor (b : TensorProto) (out_type : Z) : option TensorProto :=
  if tp_dtype b =? out_type then Some b else None.

(** A run-time shape against a shape with [None] dimensions. *)
Fixpoint shape_compatible (dims : list Z) (shape : list (option Z)) : bool :=
  match dims, shape with
  | [], [] => true
  | d :: dims', s :: shape' =>
      match s with None => true | Some e => d =? e end && shape_compatible dims' shape'
  | _, _ => false
  end.

(** [tf.ensure_shape(t, shape)] *)
Definition ensure_shape (t : TensorProto) (shape : list (option Z)) : option TensorProto :=
  if shape_compatible (tp_dims t) shape then Some t else None.

Definition _decode_example (example : Example) (type_spec : gmap string TensorSpec)
  : option Record :=
  match parse_single_example example type_spec with
  | None => None
  | Some parsed_features =>
      match map_try (fun key spec =>
                       match parsed_features !! key with
                       | Some b => parse_tensor b (ts_dtype spec)
                       | None => None
                       end) type_spec with
      | None => None
      | Some parsed_tensors =>
          match map_try (fun key t =>
                           match type_spec !! key with
                           | Some spec => ensure_shape t (ts_shape spec)
                           | None => None
                           end) parsed_tensors with
          | None => None
          | Some checked => Some (tp_value <$> checked)
          end
      end
  end.

(** A sample record for the examples: a trajectory of two steps with three
    numbers each, and a scalar. *)
Definition sample_obs : TensorProto :=
  {| tp_dtype := 1; tp_dims := [2; 3];
     tp_value := Stack [Stack [Scalar 1; Scalar 2; Scalar 3];
                        Stack [Scalar 4; Scalar 5; Scalar 6]] |}.

Definition sample_goal : TensorProto :=
  {| tp_dtype := 3; tp_dims := []; tp_value := Scalar 7 |}.

Definition sample_example : Example :=
  <["obs" := [sample_obs]]> {["goal" := [sample_goal]]}.

Definition sample_type_spec : gmap string TensorSpec :=
  <["obs" := {| ts_shape := [None; Some 3]; ts_dtype := 1 |}]>
    {["goal" := {| ts_shape := []; ts_dtype := 3 |}]}.

(** ** Well-formed records *)

(** The fields of [x] agree on the length [n]: [n] is the canonical length
    and every field is a scalar, has one row, or has [n] rows. *)
Definition lens_consistent (x : Record) (n : Z) : Prop :=
  canonical_length x = Some n /\
  map_Forall (fun _ v => tf_shape0 v = None \/ tf_shape0 v = Some 1 \/ tf_shape0 v = Some n) x.

#[global] Instance lens_consistent_dec x n : Decision (lens_consistent x n).
Proof. unfold lens_consistent. apply _. Defined.

(** The record the tagger returns on a consistent record of length [n]. *)
Definition tagged (i n : Z) (x : Record) : Record :=
  <["_len" := Stack (replicate (Z.to_nat n) (Scalar n))]>
    (<["_i" := Stack (replicate (Z.to_nat n) (Scalar i))]>
       (fst <$> broadcast_all n x)).

(** Broadcasting by repetition, as the specification words it: the rows
    that a field of a trajectory of [n] steps stands for.  A scalar and a
    single row are repeated [n] times; other rows are kept. *)
Definition repeated_rows (n : nat) (v : Tensor) : list Tensor :=
  match v with
  | Scalar z => replicate n (Scalar z)
  | Stack [r] => replicate n r
  | Stack rows => rows
  end.

(** Every component of [y] is a stack of [m] rows. *)
Definition uniform (y : Record) (m : nat) : Prop :=
  map_Forall (fun _ v => ∃ rows, v = Stack rows /\ length rows = m) y.

(** * Properties *)

(** ** The composite key *)

Section KeyArithmetic.

Lemma wrap64_range z : Int64.in_range (Int64.wrap64 z).
Proof.
  unfold Int64.in_range, Int64.wrap64, Int64.modulus, Int64.half_modulus.
  pose proof (Z.mod_pos_bound (z + 2 ^ 63) (2 ^ 64) ltac:(lia)). lia.
Qed.

Lemma wrap64_id z : Int64.in_range z -> Int64.wrap64 z = z.
Proof.
  unfold Int64.in_range, Int64.wrap64, Int64.modulus, Int64.half_modulus.
  intros Hz. rewrite Z.mod_small; lia.
Qed.

(** Within the two budgets nothing wraps: the key is the plain sum. *)
Lemma composite_key_exact traj_len i :
  0 <= i < 2 ^ 51 -> 0 <= traj_len < 2 ^ 12 ->
  composite_key traj_len i = traj_len * 2 ^ 51 + i.
Proof.
  intros Hi Hl. unfold composite_key, Int64.add, Int64.mul, _TRAJ_IDX_ENCODING_BITS.
  rewrite (wrap64_id (traj_len * 2 ^ 51)).
  - apply wrap64_id. unfold Int64.in_range, Int64.half_modulus. lia.
  - unfold Int64.in_range, Int64.half_modulus. lia.
Qed.

Lemma key_asserts_in_budget traj_len i :
  0 <= i < 2 ^ 51 -> 0 <= traj_len < 2 ^ 12 ->
  key_mod_assert traj_len i = true /\ key_div_assert traj_len i = true.
Proof.
  intros Hi Hl. unfold key_mod_assert, key_div_assert, Int64.floormod, Int64.floordiv.
  rewrite composite_key_exact by done. unfold _TRAJ_IDX_ENCODING_BITS.
  split; apply Z.eqb_eq.
  - rewrite Z.add_comm, Z.mod_add by lia. apply Z.mod_small; lia.
  - rewrite Z.add_comm, Z.div_add by lia. rewrite Z.div_small; lia.
Qed.

(** Both key assertions pass only when the key is the plain sum, which an
    int64 holds only for a length below [2^12]. *)
Lemma key_asserts_budget traj_len i :
  0 <= traj_len ->
  key_mod_assert traj_len i = true -> key_div_assert traj_len i = true ->
  0 <= i < 2 ^ 51 /\ traj_len < 2 ^ 12.
Proof.
  intros Hl Hm Hd. unfold key_mod_assert, key_div_assert, Int64.floormod, Int64.floordiv in *.
  apply Z.eqb_eq in Hm, Hd. unfold _TRAJ_IDX_ENCODING_BITS in *.
  set (k := composite_key traj_len i) in *.
  assert (Hk : Int64.in_range k) by apply wrap64_range.
  unfold Int64.in_range, Int64.half_modulus in Hk.
  pose proof (Z.mod_pos_bound k (2 ^ 51) ltac:(lia)) as Hb.
  pose proof (Z.div_mod k (2 ^ 51) ltac:(lia)) as Hdm.
  rewrite Hm, Hd in Hdm. rewrite Hm in Hb. lia.
Qed.

Lemma key_asserts_iff traj_len i :
  0 <= traj_len ->
  key_mod_assert traj_len i && key_div_assert traj_len i = true
  <-> 0 <= i < 2 ^ 51 /\ traj_len < 2 ^ 12.
Proof.
  intros Hl. rewrite andb_true_iff. split.
  - intros [Hm Hd]. by apply key_asserts_budget.
  - intros [Hi Hl2]. apply key_asserts_in_budget; lia.
Qed.

End KeyArithmetic.

(** ** Lists of lengths: [reduce_max] and [tf_unique] *)

Section LengthLists.

Lemma foldr_max_ge a r : a <= foldr Z.max a r /\ (∀ n, n ∈ r -> n <= foldr Z.max a r).
Proof.
  induction r as [|b r [IHa IHr]]; simpl.
  - split; [lia|]. intros n Hn. by apply elem_of_nil in Hn.
  - split; [lia|]. intros n [->|Hn]%elem_of_cons; [lia|]. specialize (IHr n Hn). lia.
Qed.

Lemma foldr_max_elem a r : foldr Z.max a r ∈ a :: r.
Proof.
  induction r as [|b r IH]; simpl.
  - apply list_elem_of_singleton. done.
  - destruct (Z.max_spec b (foldr Z.max a r)) as [[_ ->]|[_ ->]].
    + apply elem_of_cons in IH as [->|IH]; [left | do 2 right]; done.
    + right; left.
Qed.

Lemma reduce_max_spec l m :
  reduce_max l = Some m <-> m ∈ l /\ (∀ n, n ∈ l -> n <= m).
Proof.
  destruct l as [|a r]; simpl.
  - split; [done|]. intros [H _]. by apply elem_of_nil in H.
  - destruct (foldr_max_ge a r) as [Ha Hr]. pose proof (foldr_max_elem a r) as He.
    split.
    + intros [= <-]. split; [done|]. intros n [->|Hn]%elem_of_cons; auto.
    + intros [Hm Hle]. f_equal. specialize (Hle _ He).
      apply elem_of_cons in Hm as [->|Hm]; [lia|]. specialize (Hr _ Hm). lia.
Qed.

Lemma reduce_max_None l : reduce_max l = None <-> l = [].
Proof. destruct l; simpl; split; congruence. Qed.

Lemma tf_unique_elem a l : a ∈ tf_unique l <-> a ∈ l.
Proof.
  induction l as [|b l IH]; simpl; [done|].
  rewrite !elem_of_cons, list_elem_of_filter, IH.
  destruct (decide (a = b)) as [->|Hne]; [by split; left|].
  split; [intros [?|[_ ?]]; [done | by right] | intros [?|?]; [done | by right]].
Qed.

(** The first assertion passes exactly on a non-empty list of equal values. *)
Lemma tf_unique_one l :
  length (tf_unique l) = 1%nat <-> ∃ c, c ∈ l /\ ∀ a, a ∈ l -> a = c.
Proof.
  split.
  - intros Hlen. destruct (tf_unique l) as [|c [|? ?]] eqn:Hu; try done.
    exists c. split.
    + apply tf_unique_elem. rewrite Hu. left.
    + intros a Ha. apply (proj2 (tf_unique_elem a l)) in Ha. rewrite Hu in Ha.
      by apply list_elem_of_singleton in Ha.
  - intros (c & Hc & Hall). destruct l as [|b l]; [by apply elem_of_nil in Hc|].
    simpl. f_equal. apply length_zero_iff_nil.
    destruct (filter _ _) as [|d ?] eqn:Hf; [done|].
    assert (Hd : d ∈ filter (λ b0, b0 ≠ b) (tf_unique l)) by (rewrite Hf; left).
    apply list_elem_of_filter in Hd as [Hne Hd].
    pose proof (proj1 (tf_unique_elem d l) Hd) as Hdl.
    destruct Hne. trans c; [apply Hall; by right | symmetry; apply Hall; left].
Qed.

End LengthLists.

(** ** Lengths of the fields of a record *)

Section RecordLengths.

Lemma known_lens_elem (x : Record) n :
  n ∈ known_lens x <-> ∃ k v, x !! k = Some v /\ tf_shape0 v = Some n.
Proof.
  unfold known_lens, traj_lens. rewrite list_elem_of_omap. split.
  - intros (o & Ho & Hid). simpl in Hid. subst o.
    apply list_elem_of_fmap in Ho as ([k o] & -> & Hko).
    apply elem_of_map_to_list in Hko. rewrite lookup_fmap in Hko.
    destruct (x !! k) as [v|] eqn:Hv; simplify_eq/=. eauto.
  - intros (k & v & Hv & Hn). exists (Some n). split; [|done].
    apply list_elem_of_fmap. exists (k, Some n). split; [done|].
    apply elem_of_map_to_list. by rewrite lookup_fmap, Hv; simpl; rewrite Hn.
Qed.

Lemma canonical_length_spec (x : Record) m :
  canonical_length x = Some m <->
  (∃ k v, x !! k = Some v /\ tf_shape0 v = Some m) /\
  (∀ k v n, x !! k = Some v -> tf_shape0 v = Some n -> n <= m).
Proof.
  unfold canonical_length. rewrite reduce_max_spec, known_lens_elem. split.
  - intros [He Hle]. split; [done|]. intros k v n Hv Hn.
    apply Hle, known_lens_elem. eauto.
  - intros [He Hle]. split; [done|]. intros n (k & v & Hv & Hn)%known_lens_elem. eauto.
Qed.

Lemma canonical_length_None (x : Record) :
  canonical_length x = None <-> ∀ k v, x !! k = Some v -> tf_shape0 v = None.
Proof.
  unfold canonical_length. rewrite reduce_max_None. split.
  - intros Hnil k v Hv. destruct (tf_shape0 v) as [n|] eqn:Hn; [|done].
    assert (n ∈ known_lens x) as Hin by (apply known_lens_elem; eauto).
    rewrite Hnil in Hin. by apply elem_of_nil in Hin.
  - intros Hall. destruct (known_lens x) as [|n ?] eqn:Hk; [done|].
    assert (n ∈ known_lens x) as (k & v & Hv & Hn)%known_lens_elem by (rewrite Hk; left).
    rewrite (Hall _ _ Hv) in Hn. done.
Qed.

Lemma canonical_length_nonneg (x : Record) m : canonical_length x = Some m -> 0 <= m.
Proof.
  intros [(k & v & _ & Hv) _]%canonical_length_spec.
  destruct v; simplify_eq/=. lia.
Qed.

End RecordLengths.

(** ** The broadcasting loop *)

Section Broadcast.

Lemma tf_repeat_scalar z n :
  tf_repeat (Scalar z) n = Stack (replicate (Z.to_nat n) (Scalar z)).
Proof. unfold tf_repeat. simpl. by rewrite app_nil_r. Qed.

Lemma broadcast_entry_scalar n z :
  broadcast_entry n (Scalar z) = (Stack (replicate (Z.to_nat n) (Scalar z)), n).
Proof.
  unfold broadcast_entry. simpl. rewrite tf_repeat_scalar.
  destruct (n =? 1) eqn:Hn; [|done].
  apply Z.eqb_eq in Hn. subst n. reflexivity.
Qed.

Lemma broadcast_entry_single n r :
  broadcast_entry n (Stack [r]) = (Stack (replicate (Z.to_nat n) r), n).
Proof. unfold broadcast_entry. simpl. by rewrite app_nil_r. Qed.

Lemma broadcast_entry_other n rows :
  length rows ≠ 1%nat ->
  broadcast_entry n (Stack rows) = (Stack rows, Z.of_nat (length rows)).
Proof.
  intros Hne. unfold broadcast_entry. simpl.
  destruct (Z.of_nat (length rows) =? 1) eqn:Hl; [|done].
  apply Z.eqb_eq in Hl. lia.
Qed.

(** What the loop leaves in a field that is a scalar, has one row, or has
    [n] rows already: a stack of [n] rows, recorded with length [n]. *)
Lemma broadcast_entry_consistent n v :
  0 <= n ->
  tf_shape0 v = None \/ tf_shape0 v = Some 1 \/ tf_shape0 v = Some n ->
  ∃ rows, broadcast_entry n v = (Stack rows, n) /\ length rows = Z.to_nat n.
Proof.
  intros Hn Hv. destruct v as [z|rows].
  - rewrite broadcast_entry_scalar. eexists; split; [done|]. apply length_replicate.
  - destruct (decide (length rows = 1%nat)) as [H1|H1].
    + destruct rows as [|r [|? ?]]; try done.
      rewrite broadcast_entry_single. eexists; split; [done|]. apply length_replicate.
    + rewrite broadcast_entry_other by done.
      destruct Hv as [Hv|[Hv|Hv]]; simplify_eq/=; [lia|].
      eexists; split; [done|]. lia.
Qed.

Lemma map_values_elem {A B} (f : A -> B) (m : gmap string A) b :
  b ∈ (map_to_list (f <$> m)).*2 <-> ∃ k a, m !! k = Some a /\ f a = b.
Proof.
  rewrite list_elem_of_fmap. split.
  - intros ([k b'] & -> & Hk). apply elem_of_map_to_list in Hk.
    rewrite lookup_fmap in Hk. destruct (m !! k) as [a|] eqn:Ha; simplify_eq/=. eauto.
  - intros (k & a & Ha & <-). exists (k, f a). split; [done|].
    apply elem_of_map_to_list. by rewrite lookup_fmap, Ha.
Qed.

Lemma broadcast_lens_elem n (x : Record) l :
  l ∈ (map_to_list (snd <$> broadcast_all n x)).*2
  <-> ∃ k v, x !! k = Some v /\ (broadcast_entry n v).2 = l.
Proof.
  unfold broadcast_all. rewrite <- map_fmap_compose. apply map_values_elem.
Qed.

(** The first assertion, read on the record. *)
Lemma lens_assert_spec n (x : Record) :
  lens_assert (snd <$> broadcast_all n x) = true <->
  ∃ c, (∃ k v, x !! k = Some v /\ (broadcast_entry n v).2 = c) /\
       (∀ k v, x !! k = Some v -> (broadcast_entry n v).2 = c).
Proof.
  unfold lens_assert. rewrite bool_decide_eq_true, tf_unique_one.
  split; intros (c & Hc & Hall); exists c.
  - split; [by apply broadcast_lens_elem|].
    intros k v Hv. apply Hall, broadcast_lens_elem. eauto.
  - split; [by apply broadcast_lens_elem|].
    intros a (k & v & Hv & <-)%broadcast_lens_elem. eauto.
Qed.

End Broadcast.

Section Tagger.

Lemma lens_consistent_nonneg x n : lens_consistent x n -> 0 <= n.
Proof. intros [Hc _]. by eapply canonical_length_nonneg. Qed.

Lemma lens_consistent_entry x n k v :
  lens_consistent x n -> x !! k = Some v ->
  ∃ rows, broadcast_entry n v = (Stack rows, n) /\ length rows = Z.to_nat n.
Proof.
  intros Hx Hv. apply broadcast_entry_consistent; [by eapply lens_consistent_nonneg|].
  destruct Hx as [_ Hall]. exact (Hall k v Hv).
Qed.

Lemma lens_consistent_assert x n :
  lens_consistent x n -> lens_assert (snd <$> broadcast_all n x) = true.
Proof.
  intros Hx. apply lens_assert_spec. exists n. split.
  - destruct Hx as [Hc Hall]. pose proof Hc as [(k & v & Hv & _) _]%canonical_length_spec.
    exists k, v. split; [done|].
    destruct (lens_consistent_entry x n k v (conj Hc Hall) Hv) as (rows & -> & _). done.
  - intros k v Hv. destruct (lens_consistent_entry x n k v Hx Hv) as (rows & -> & _). done.
Qed.

Lemma broadcast_lookup n (x : Record) k :
  (fst <$> broadcast_all n x) !! k = (fun v => (broadcast_entry n v).1) <$> x !! k.
Proof. unfold broadcast_all. rewrite !lookup_fmap. by destruct (x !! k). Qed.

Lemma reserved_assert_broadcast n (x : Record) :
  reserved_assert (fst <$> broadcast_all n x) = reserved_assert x.
Proof.
  unfold reserved_assert. rewrite !broadcast_lookup.
  destruct (x !! "_i"), (x !! "_len"); reflexivity.
Qed.

Lemma reserved_assert_true (x : Record) :
  reserved_assert x = true <-> x !! "_i" = None /\ x !! "_len" = None.
Proof. unfold reserved_assert. by rewrite andb_true_iff, !bool_decide_eq_true. Qed.

(** The tagger once the canonical length is known: the checks in the
    order in which they fail. *)
Lemma tagger_unfold (i n : Z) (x : Record) :
  canonical_length x = Some n ->
  _add_traj_metadata i x =
  if negb (reserved_assert x) then Err ReservedFieldError
  else if negb (lens_assert (snd <$> broadcast_all n x)) then Err LengthMismatchError
  else if negb (key_mod_assert n i && key_div_assert n i) then Err KeyOverflowError
  else Ok (tagged i n x).
Proof.
  intros Hc. unfold _add_traj_metadata. rewrite Hc, reserved_assert_broadcast.
  destruct (reserved_assert x); [|done]. simpl.
  destruct (lens_assert _); [|done]. simpl.
  destruct (key_mod_assert n i); [|done]. simpl.
  destruct (key_div_assert n i); [|done]. simpl.
  unfold tagged. by rewrite !tf_repeat_scalar.
Qed.

Lemma reserved_assert_false (x : Record) :
  is_Some (x !! "_i") \/ is_Some (x !! "_len") -> reserved_assert x = false.
Proof.
  intros Hres. apply not_true_is_false. intros [Hi Hl]%reserved_assert_true.
  rewrite Hi, Hl in Hres. destruct Hres as [[? ?]|[? ?]]; done.
Qed.

(** The tagger on a record whose assertions all pass. *)
Lemma tagger_accepts i n (x : Record) :
  lens_consistent x n -> 0 <= i < 2 ^ 51 -> n < 2 ^ 12 ->
  x !! "_i" = None -> x !! "_len" = None ->
  _add_traj_metadata i x = Ok (tagged i n x).
Proof.
  intros Hx Hi Hn Hri Hrl. pose proof (lens_consistent_nonneg _ _ Hx) as Hn0.
  unfold _add_traj_metadata. destruct Hx as [Hc Hall]. rewrite Hc.
  rewrite (lens_consistent_assert x n (conj Hc Hall)).
  destruct (key_asserts_in_budget n i) as [-> ->]; [lia..|].
  rewrite reserved_assert_broadcast.
  rewrite (proj2 (reserved_assert_true x)) by done. simpl.
  by rewrite !tf_repeat_scalar.
Qed.

End Tagger.

(** * The specification's claims about the tagger *)

Section TaggerClaims.

(** C1 (composite-key round-trip).  For an index [idx] with
    [0 <= idx < 2^51] and a length [len] with [0 <= len < 2^12], the key
    that [_add_traj_metadata] computes in int64 arithmetic is
    [len * 2^51 + idx], its floormod by [2^51] is [idx] and its floordiv
    by [2^51] is [len]. *)
Theorem composite_key_roundtrip (len idx : Z) :
  0 <= idx < 2 ^ 51 -> 0 <= len < 2 ^ 12 ->
  composite_key len idx = len * 2 ^ 51 + idx /\
  Int64.floormod (composite_key len idx) (2 ^ 51) = idx /\
  Int64.floordiv (composite_key len idx) (2 ^ 51) = len.
Proof.
  intros Hi Hl. split; [by apply composite_key_exact|].
  destruct (key_asserts_in_budget len idx Hi Hl) as [Hm Hd].
  unfold key_mod_assert, key_div_assert, _TRAJ_IDX_ENCODING_BITS in *.
  split; by apply Z.eqb_eq.
Qed.

Lemma composite_key_roundtrip_witness :
  Int64.floormod (composite_key 4095 (2 ^ 51 - 1)) (2 ^ 51) = 2 ^ 51 - 1 /\
  Int64.floordiv (composite_key 4095 (2 ^ 51 - 1)) (2 ^ 51) = 4095.
Proof. apply (composite_key_roundtrip 4095 (2 ^ 51 - 1)); lia. Defined.

(** No record passes both key assertions outside the budgets. *)
Lemma key_asserts_fail_on_overflow n i :
  0 <= n -> i = 2 ^ 51 \/ n = 2 ^ 12 ->
  key_mod_assert n i && key_div_assert n i = false.
Proof.
  intros Hn Hov. apply not_true_is_false. intros Hk%key_asserts_iff; lia.
Qed.

(** C3, as the specification states it, fails: at index [2^51] a record
    that has a field [_i] is answered with the error of the reserved names,
    which are looked at before any key is computed. *)
Lemma overflow_claim_refuted :
  ¬ (∀ (i : Z) (x : Record),
       i = 2 ^ 51 \/ canonical_length x = Some (2 ^ 12) ->
       _add_traj_metadata i x = Err KeyOverflowError).
Proof.
  intros H. specialize (H (2 ^ 51) {["_i" := Stack [Scalar 1; Scalar 2]]} (or_introl eq_refl)).
  assert (Hres : _add_traj_metadata (2 ^ 51) {["_i" := Stack [Scalar 1; Scalar 2]]}
                 = Err ReservedFieldError) by (vm_compute; reflexivity).
  rewrite Hres in H. discriminate H.
Qed.

(** C3, amended (overflow rejection).  A record whose enumeration index is
    [2^51], or whose canonical length is [2^12], gets no key: the tagger
    returns an error on every such record.  On a trajectory, that is a
    record whose fields agree on their length and which has no field [_i]
    or [_len], that error is [KeyOverflowError], and on no other record. *)
Theorem overflow_rejected (i : Z) (x : Record) :
  i = 2 ^ 51 \/ canonical_length x = Some (2 ^ 12) ->
  (∃ e, _add_traj_metadata i x = Err e) /\
  (∀ n, lens_consistent x n /\ x !! "_i" = None /\ x !! "_len" = None ->
        _add_traj_metadata i x = Err KeyOverflowError) /\
  (_add_traj_metadata i x = Err KeyOverflowError ->
   ∃ n, lens_consistent x n /\ x !! "_i" = None /\ x !! "_len" = None).
Proof.
  intros Hov.
  assert (Hk : ∀ n, canonical_length x = Some n ->
                    key_mod_assert n i && key_div_assert n i = false).
  { intros n Hc. apply key_asserts_fail_on_overflow; [by eapply canonical_length_nonneg|].
    destruct Hov as [?|Hn]; [by left | right; congruence]. }
  split.
  - destruct (canonical_length x) as [n|] eqn:Hc.
    + rewrite (tagger_unfold i n x Hc), (Hk n eq_refl).
      destruct (reserved_assert x); simpl; [|eauto].
      destruct (lens_assert _); simpl; eauto.
    + exists EmptyReduceMax. unfold _add_traj_metadata. by rewrite Hc.
  - split.
    + intros n (Hx & Hri & Hrl). rewrite (tagger_unfold i n x (proj1 Hx)).
      rewrite (proj2 (reserved_assert_true x)) by done.
      rewrite (lens_consistent_assert x n Hx), (Hk n (proj1 Hx)). done.
    + destruct (canonical_length x) as [n|] eqn:Hc;
        [|unfold _add_traj_metadata; by rewrite Hc].
      rewrite (tagger_unfold i n x Hc).
      destruct (reserved_assert x) eqn:Hr; [|done]. simpl.
      destruct (lens_assert _) eqn:Hlens; [|done]. simpl. intros _.
      apply reserved_assert_true in Hr as [Hri Hrl]. exists n.
      split; [|done]. split; [done|].
      destruct (decide (lens_consistent x n)) as [[_ Hall]|Hx]; [done|].
      exfalso. apply Hx. split; [done|].
      apply lens_assert_spec in Hlens as (c & _ & Hall).
      pose proof Hc as [(k0 & v0 & Hv0 & Hs0) _]%canonical_length_spec.
      assert (Hcn : c = n).
      { rewrite <- (Hall _ _ Hv0). destruct v0 as [z|rows]; [done|]. simplify_eq/=.
        destruct (decide (length rows = 1%nat)) as [H1|H1].
        - destruct rows as [|r [|? ?]]; try done.
        - by rewrite broadcast_entry_other. }
      subst c. intros k v Hv. simpl. destruct v as [z|rows]; [by left|]. right.
      destruct (decide (length rows = 1%nat)) as [H1|H1].
      * left. simpl. by rewrite H1.
      * right. specialize (Hall _ _ Hv). rewrite broadcast_entry_other in Hall by done.
        simpl in *. by rewrite Hall.
Qed.

Lemma overflow_rejected_witness :
  _add_traj_metadata (2 ^ 51) {["obs" := Stack [Scalar 1; Scalar 2]]} = Err KeyOverflowError.
Proof.
  apply (proj1 (proj2 (overflow_rejected (2 ^ 51) {["obs" := Stack [Scalar 1; Scalar 2]]}
                         (or_introl eq_refl))) 2).
  split; [apply (bool_decide_unpack _); vm_compute; exact I | split; reflexivity].
Defined.

(** C5, as the specification states it, fails: a record with fields of 5
    and of 7 rows, one of them named [_i], is answered with the error of the
    reserved names, not with that of the lengths. *)
Lemma length_mismatch_claim_refuted :
  ¬ (∀ (i : Z) (x : Record) (k1 k2 : string) (r1 r2 : list Tensor),
       x !! k1 = Some (Stack r1) -> x !! k2 = Some (Stack r2) ->
       length r1 ≠ length r2 -> length r1 ≠ 1%nat -> length r2 ≠ 1%nat ->
       _add_traj_metadata i x = Err LengthMismatchError).
Proof.
  intros H.
  specialize (H 0 (<["_i" := Stack (replicate 5 (Scalar 0))]>
                     {["b" := Stack (replicate 7 (Scalar 0))]})
                "_i" "b" (replicate 5 (Scalar 0)) (replicate 7 (Scalar 0))).
  assert (Hres : _add_traj_metadata 0
                   (<["_i" := Stack (replicate 5 (Scalar 0))]>
                      {["b" := Stack (replicate 7 (Scalar 0))]})
                 = Err ReservedFieldError) by (vm_compute; reflexivity).
  rewrite Hres in H.
  discriminate H; [reflexivity | reflexivity | simpl; lia | simpl; lia | simpl; lia].
Qed.

(** C5, amended (length-consistency check).  A record without a field [_i]
    or [_len] that has two non-scalar fields whose leading dimensions
    differ, neither being 1, is answered with [LengthMismatchError]; no
    tagged record is returned. *)
Theorem length_mismatch_rejected (i : Z) (x : Record) (k1 k2 : string) (r1 r2 : list Tensor) :
  x !! "_i" = None -> x !! "_len" = None ->
  x !! k1 = Some (Stack r1) -> x !! k2 = Some (Stack r2) ->
  length r1 ≠ length r2 -> length r1 ≠ 1%nat -> length r2 ≠ 1%nat ->
  _add_traj_metadata i x = Err LengthMismatchError.
Proof.
  intros Hri Hrl H1 H2 Hne Hn1 Hn2.
  destruct (canonical_length x) as [n|] eqn:Hc.
  - rewrite (tagger_unfold i n x Hc), (proj2 (reserved_assert_true x)) by done. simpl.
    destruct (lens_assert (snd <$> broadcast_all n x)) eqn:Hlens; [|done].
    apply lens_assert_spec in Hlens as (c & _ & Hall).
    pose proof (Hall _ _ H1) as Hc1. pose proof (Hall _ _ H2) as Hc2.
    rewrite broadcast_entry_other in Hc1, Hc2 by done. simpl in *. lia.
  - pose proof (proj1 (canonical_length_None x) Hc _ _ H1). done.
Qed.

Lemma length_mismatch_rejected_witness :
  _add_traj_metadata 0
    (<["a" := Stack (replicate 5 (Scalar 0))]> {["b" := Stack (replicate 7 (Scalar 0))]})
  = Err LengthMismatchError.
Proof.
  apply (length_mismatch_rejected 0 _ "a" "b"
           (replicate 5 (Scalar 0)) (replicate 7 (Scalar 0)));
    [reflexivity | reflexivity | reflexivity | reflexivity
    | simpl; lia | simpl; lia | simpl; lia].
Defined.

(** C4, as the specification states it (a length budget of [64 - 51 = 13]
    bits), fails: a record of [4096 < 2^13] steps at index 0 is rejected. *)
Lemma key_budget_13_bits_refuted :
  ¬ (∀ (i : Z) (x : Record) (n : Z),
       0 <= i < 2 ^ 51 -> 0 <= n < 2 ^ (64 - 51) ->
       lens_consistent x n -> x !! "_i" = None -> x !! "_len" = None ->
       is_Ok (_add_traj_metadata i x)).
Proof.
  intros H.
  specialize (H 0 {["obs" := Stack (replicate 4096%nat (Scalar 0))]} 4096).
  assert (Hrej : _add_traj_metadata 0 {["obs" := Stack (replicate 4096%nat (Scalar 0))]}
                 = Err KeyOverflowError) by (vm_compute; reflexivity).
  rewrite Hrej in H. apply H; [lia | lia | | reflexivity | reflexivity].
  apply (bool_decide_unpack _). vm_compute. exact I.
Qed.

(** C4, amended.  On a record whose fields agree on the length [n] and
    which has no field [_i] or [_len], the tagger returns a tagged record
    exactly when [0 <= i < 2^51] and [n < 2^12]: a signed 64-bit key leaves
    12 bits for the length.  Whenever it returns one, the key decodes to
    [i] and [n]. *)
Theorem key_budget_exact (i : Z) (x : Record) (n : Z) :
  lens_consistent x n -> x !! "_i" = None -> x !! "_len" = None ->
  (is_Ok (_add_traj_metadata i x) <-> 0 <= i < 2 ^ 51 /\ 0 <= n < 2 ^ 12) /\
  (is_Ok (_add_traj_metadata i x) ->
   Int64.floormod (composite_key n i) (2 ^ 51) = i /\
   Int64.floordiv (composite_key n i) (2 ^ 51) = n).
Proof.
  intros Hx Hri Hrl. pose proof (lens_consistent_nonneg _ _ Hx) as Hn0.
  assert (Hfwd : is_Ok (_add_traj_metadata i x) ->
                 key_mod_assert n i = true /\ key_div_assert n i = true).
  { rewrite (tagger_unfold i n x (proj1 Hx)).
    destruct (reserved_assert x); [|done]. simpl.
    destruct (lens_assert _); [|done]. simpl.
    destruct (key_mod_assert n i); [|done].
    destruct (key_div_assert n i); done. }
  split.
  - split.
    + intros [Hm Hd]%Hfwd. pose proof (key_asserts_budget n i Hn0 Hm Hd). lia.
    + intros [Hi Hn]. rewrite (tagger_accepts i n x); [done..| lia | done | done].
  - intros [Hm Hd]%Hfwd. unfold key_mod_assert, key_div_assert, _TRAJ_IDX_ENCODING_BITS in *.
    split; by apply Z.eqb_eq.
Qed.

Lemma key_budget_exact_witness :
  is_Ok (_add_traj_metadata 7 {["obs" := Stack [Scalar 1; Scalar 2]]})
  <-> 0 <= 7 < 2 ^ 51 /\ 0 <= 2 < 2 ^ 12.
Proof.
  apply (key_budget_exact 7 {["obs" := Stack [Scalar 1; Scalar 2]]} 2);
    [apply (bool_decide_unpack _); vm_compute; exact I | reflexivity | reflexivity].
Defined.

(** C6, as the specification states it, fails: a field with one row does
    set the length when no other field has rows.  Beside a field without
    rows the length is 0 without it and 1 with it. *)
Lemma one_row_field_sets_length :
  ¬ (∀ (x : Record) (k : string) (r : Tensor),
       x !! k = None ->
       canonical_length (<[k := Stack [r]]> x) = canonical_length x).
Proof.
  intros H. specialize (H {["a" := Stack []]} "b" (Scalar 5) eq_refl).
  vm_compute in H. discriminate H.
Qed.

(** C6, amended (canonical length).  The length the tagger computes is the
    maximum of the numbers of rows of the non-scalar fields, those with one
    row included: some field has that many rows and no field has more.  A
    scalar field takes no part in it.  A field with one row raises it to 1
    when it was 0 or when there was no non-scalar field, and leaves it as it
    is otherwise. *)
Theorem canonical_length_is_max (x : Record) :
  (∀ m, canonical_length x = Some m <->
        (∃ k rows, x !! k = Some (Stack rows) /\ Z.of_nat (length rows) = m) /\
        (∀ k rows, x !! k = Some (Stack rows) -> Z.of_nat (length rows) <= m)) /\
  (∀ k z, x !! k = None ->
          canonical_length (<[k := Scalar z]> x) = canonical_length x) /\
  (∀ k r, x !! k = None ->
          canonical_length (<[k := Stack [r]]> x) =
          Some (match canonical_length x with Some m => Z.max m 1 | None => 1 end)).
Proof.
  assert (Hspec : ∀ (y : Record) m, canonical_length y = Some m <->
            (∃ k rows, y !! k = Some (Stack rows) /\ Z.of_nat (length rows) = m) /\
            (∀ k rows, y !! k = Some (Stack rows) -> Z.of_nat (length rows) <= m)).
  { intros y m. rewrite canonical_length_spec. split.
    - intros [(k & v & Hv & Hs) Hle]. split.
      + destruct v as [z|rows]; simplify_eq/=. eauto.
      + intros k' rows Hv'. by apply (Hle k' (Stack rows)).
    - intros [(k & rows & Hv & Hs) Hle]. split.
      + exists k, (Stack rows). split; [done|]. simpl. by rewrite Hs.
      + intros k' v n Hv' Hs'. destruct v as [z|rows']; simplify_eq/=. eauto. }
  split; [apply Hspec|]. split.
  - intros k z Hk. apply option_eq. intros m. rewrite !Hspec.
    split; intros [(k' & rows & Hv & Hs) Hle]; split.
    + destruct (decide (k = k')) as [<-|Hne].
      * rewrite lookup_insert_eq in Hv. done.
      * rewrite lookup_insert_ne in Hv by done. eauto.
    + intros k2 rows2 H2. apply (Hle k2 rows2).
      rewrite lookup_insert_ne; [done|]. intros <-. congruence.
    + exists k', rows. split; [|done]. rewrite lookup_insert_ne; [done|]. intros <-. congruence.
    + intros k2 rows2 H2. destruct (decide (k = k2)) as [<-|Hne].
      * rewrite lookup_insert_eq in H2. done.
      * rewrite lookup_insert_ne in H2 by done. eauto.
  - intros k r Hk. apply Hspec. destruct (canonical_length x) as [m|] eqn:Hc.
    + pose proof (canonical_length_nonneg _ _ Hc) as Hm0.
      apply Hspec in Hc as [(k' & rows & Hv & Hs) Hle]. split.
      * destruct (Z.max_spec m 1) as [[Hlt ->]|[Hge ->]].
        { exists k, [r]. by rewrite lookup_insert_eq. }
        { exists k', rows. split; [|done]. rewrite lookup_insert_ne; [done|].
          intros <-. congruence. }
      * intros k2 rows2 H2. destruct (decide (k = k2)) as [<-|Hne].
        { rewrite lookup_insert_eq in H2. injection H2 as <-. simpl. lia. }
        { rewrite lookup_insert_ne in H2 by done. specialize (Hle _ _ H2). lia. }
    + pose proof (proj1 (canonical_length_None x) Hc) as Hnone. split.
      * exists k, [r]. by rewrite lookup_insert_eq.
      * intros k2 rows2 H2. destruct (decide (k = k2)) as [<-|Hne].
        { rewrite lookup_insert_eq in H2. injection H2 as <-. simpl. lia. }
        { rewrite lookup_insert_ne in H2 by done. by specialize (Hnone _ _ H2). }
Qed.

Lemma canonical_length_is_max_witness :
  canonical_length (<["b" := Stack [Scalar 5]]> {["a" := Stack []]}) = Some 1 /\
  canonical_length (<["g" := Scalar 9]> {["a" := Stack [Scalar 1; Scalar 2; Scalar 3]]})
  = Some 3.
Proof.
  split.
  - exact (proj2 (proj2 (canonical_length_is_max {["a" := Stack []]}))
                 "b" (Scalar 5) eq_refl).
  - exact (proj1 (proj2 (canonical_length_is_max
                           {["a" := Stack [Scalar 1; Scalar 2; Scalar 3]]}))
                 "g" 9 eq_refl).
Defined.

(** C8, as the specification states it, fails: a record whose only field
    is a scalar named [_i] is rejected before the names are looked at,
    because it has no length. *)
Lemma reserved_claim_refuted :
  ¬ (∀ (i : Z) (x : Record),
       is_Some (x !! "_i") \/ is_Some (x !! "_len") ->
       _add_traj_metadata i x = Err ReservedFieldError).
Proof.
  intros H. specialize (H 0 {["_i" := Scalar 3]}).
  assert (Hres : _add_traj_metadata 0 {["_i" := Scalar 3]} = Err EmptyReduceMax)
    by (vm_compute; reflexivity).
  rewrite Hres in H. discriminate H. left. by exists (Scalar 3).
Qed.

(** C8, amended (reserved fields).  A record that already has a field [_i]
    or [_len] is never tagged and none of its fields is overwritten: the
    tagger returns an error.  When the record has a non-scalar field that
    error is [ReservedFieldError], whatever the lengths of the fields and
    whatever the index. *)
Theorem reserved_field_rejected (i : Z) (x : Record) :
  is_Some (x !! "_i") \/ is_Some (x !! "_len") ->
  (∃ e, _add_traj_metadata i x = Err e) /\
  ((∃ k rows, x !! k = Some (Stack rows)) ->
   _add_traj_metadata i x = Err ReservedFieldError).
Proof.
  intros Hres. pose proof (reserved_assert_false x Hres) as Hr.
  assert (Hn : ∀ n, canonical_length x = Some n ->
                    _add_traj_metadata i x = Err ReservedFieldError).
  { intros n Hc. by rewrite (tagger_unfold i n x Hc), Hr. }
  split.
  - destruct (canonical_length x) as [n|] eqn:Hc; [eauto|].
    exists EmptyReduceMax. unfold _add_traj_metadata. by rewrite Hc.
  - intros (k & rows & Hv). destruct (canonical_length x) as [n|] eqn:Hc; [eauto|].
    pose proof (proj1 (canonical_length_None x) Hc _ _ Hv). done.
Qed.

Lemma reserved_field_rejected_witness :
  _add_traj_metadata (2 ^ 51)
    (<["_len" := Scalar 3]>
       (<["a" := Stack (replicate 5 (Scalar 0))]> {["b" := Stack (replicate 7 (Scalar 0))]}))
  = Err ReservedFieldError.
Proof.
  refine (proj2 (reserved_field_rejected (2 ^ 51)
                   (<["_len" := Scalar 3]>
                      (<["a" := Stack (replicate 5 (Scalar 0))]>
                         {["b" := Stack (replicate 7 (Scalar 0))]})) _) _).
  - right. exists (Scalar 3). reflexivity.
  - exists "a", (replicate 5 (Scalar 0)). reflexivity.
Defined.

End TaggerClaims.

(** ** Flattening a tagged record *)

Section Unbatch.

Lemma broadcast_entry_repeated n v :
  0 <= n ->
  tf_shape0 v = None \/ tf_shape0 v = Some 1 \/ tf_shape0 v = Some n ->
  (broadcast_entry n v).1 = Stack (repeated_rows (Z.to_nat n) v).
Proof.
  intros Hn Hv. destruct v as [z|rows].
  - by rewrite broadcast_entry_scalar.
  - destruct (decide (length rows = 1%nat)) as [H1|H1].
    + destruct rows as [|r [|? ?]]; try done. by rewrite broadcast_entry_single.
    + rewrite broadcast_entry_other by done.
      destruct rows as [|r [|? ?]]; done.
Qed.

Lemma tagged_lookup_field i n (x : Record) k v :
  lens_consistent x n -> x !! "_i" = None -> x !! "_len" = None ->
  x !! k = Some v ->
  tagged i n x !! k = Some (Stack (repeated_rows (Z.to_nat n) v)).
Proof.
  intros Hx Hri Hrl Hv. unfold tagged.
  rewrite !lookup_insert_ne by (intros <-; congruence).
  rewrite broadcast_lookup, Hv. simpl. f_equal.
  apply broadcast_entry_repeated; [by eapply lens_consistent_nonneg|].
  destruct Hx as [_ Hall]. exact (Hall k v Hv).
Qed.

Lemma tagged_lookup_i i n (x : Record) :
  tagged i n x !! "_i" = Some (Stack (replicate (Z.to_nat n) (Scalar i))).
Proof. unfold tagged. by rewrite lookup_insert_ne, lookup_insert_eq. Qed.

Lemma tagged_lookup_len i n (x : Record) :
  tagged i n x !! "_len" = Some (Stack (replicate (Z.to_nat n) (Scalar n))).
Proof. unfold tagged. by rewrite lookup_insert_eq. Qed.

Lemma tagged_uniform i n (x : Record) :
  lens_consistent x n -> uniform (tagged i n x) (Z.to_nat n).
Proof.
  intros Hx k v. unfold tagged.
  destruct (decide (k = "_len")) as [->|Hl].
  { rewrite lookup_insert_eq. intros [= <-]. eexists; split; [done|]. apply length_replicate. }
  rewrite lookup_insert_ne by done.
  destruct (decide (k = "_i")) as [->|Hi].
  { rewrite lookup_insert_eq. intros [= <-]. eexists; split; [done|]. apply length_replicate. }
  rewrite lookup_insert_ne by done. rewrite broadcast_lookup.
  destruct (x !! k) as [v0|] eqn:Hv; [|done]. intros [= <-].
  destruct (lens_consistent_entry x n k v0 Hx Hv) as (rows & -> & Hlen). eauto.
Qed.

Lemma leading_dims_uniform (y : Record) m d :
  uniform y m -> d ∈ leading_dims y -> d = Some (Z.of_nat m).
Proof.
  intros Hy (k & v & Hv & <-)%map_values_elem.
  destruct (Hy k v Hv) as (rows & -> & <-). done.
Qed.

Lemma unbatch_record_uniform (y : Record) m :
  uniform y m -> y ≠ ∅ -> unbatch_record y = Some (slice_at y <$> seq 0 m).
Proof.
  intros Hy Hne. unfold unbatch_record.
  pose proof (leading_dims_uniform y m) as Hd.
  destruct (leading_dims y) as [|d rest] eqn:Hl.
  - unfold leading_dims in Hl. apply fmap_nil_inv in Hl.
    apply map_to_list_empty_iff in Hl. apply fmap_empty_inv in Hl. done.
  - rewrite (Hd d Hy) by left.
    assert (forallb (λ d0, bool_decide (d0 = Some (Z.of_nat m))) rest = true) as ->.
    { apply forallb_forall. intros d' Hin%list_elem_of_In.
      apply bool_decide_eq_true. apply Hd; [done | by right]. }
    by rewrite Nat2Z.id.
Qed.

Lemma slice_at_lookup (y : Record) j k :
  slice_at y j !! k = y !! k ≫= (fun v => rows_of v !! j).
Proof. unfold slice_at. apply lookup_omap. Qed.

End Unbatch.

Section Emission.

Lemma tagged_nonempty i n (x : Record) : tagged i n x ≠ ∅.
Proof.
  intros He. pose proof (tagged_lookup_len i n x) as Hl.
  rewrite He, lookup_empty in Hl. done.
Qed.

Lemma steps_lookup (y : Record) m j s :
  (slice_at y <$> seq 0 m) !! j = Some s <-> s = slice_at y j /\ (j < m)%nat.
Proof.
  rewrite list_lookup_fmap. split.
  - destruct (seq 0 m !! j) as [j'|] eqn:Hj; [|done]. intros [= <-].
    apply lookup_seq in Hj as [-> Hlt]. done.
  - intros [-> Hlt]. by rewrite lookup_seq_lt.
Qed.

(** C7 (broadcast and emission).  On a record whose fields agree on the
    length [n], within the key budgets and without reserved names, the
    tagger returns a record [y] in which every field of [x] holds its
    repeated rows (a scalar repeated [n] times, a single row repeated [n]
    times along axis 0, [n] rows kept); flattening [y] gives exactly [n]
    steps; step [j] carries [_i = i], [_len = n] and, for every field, row
    [j] of the repeated rows, so a scalar or single-row field is the same
    in every step. *)
Theorem broadcast_and_emission (i n : Z) (x : Record) :
  lens_consistent x n -> 0 <= i < 2 ^ 51 -> n < 2 ^ 12 ->
  x !! "_i" = None -> x !! "_len" = None ->
  ∃ y steps,
    _add_traj_metadata i x = Ok y /\
    (∀ k v, x !! k = Some v -> y !! k = Some (Stack (repeated_rows (Z.to_nat n) v))) /\
    unbatch_record y = Some steps /\
    length steps = Z.to_nat n /\
    ∀ j s, steps !! j = Some s ->
      s !! "_i" = Some (Scalar i) /\
      s !! "_len" = Some (Scalar n) /\
      (∀ k v, x !! k = Some v -> s !! k = repeated_rows (Z.to_nat n) v !! j) /\
      (∀ k z, x !! k = Some (Scalar z) -> s !! k = Some (Scalar z)) /\
      (∀ k r, x !! k = Some (Stack [r]) -> s !! k = Some r).
Proof.
  intros Hx Hi Hn Hri Hrl.
  exists (tagged i n x), (slice_at (tagged i n x) <$> seq 0 (Z.to_nat n)).
  split; [by apply tagger_accepts|].
  split; [intros k v Hv; by apply tagged_lookup_field|].
  split; [apply unbatch_record_uniform; [by apply tagged_uniform | apply tagged_nonempty]|].
  split; [by rewrite length_fmap, length_seq|].
  intros j s [-> Hj]%steps_lookup.
  assert (Hfield : ∀ k v, x !! k = Some v ->
            slice_at (tagged i n x) j !! k = repeated_rows (Z.to_nat n) v !! j).
  { intros k v Hv. rewrite slice_at_lookup, (tagged_lookup_field i n x k v) by done. done. }
  split; [|split; [|split; [|split]]].
  - rewrite slice_at_lookup, tagged_lookup_i. simpl. by apply lookup_replicate_2.
  - rewrite slice_at_lookup, tagged_lookup_len. simpl. by apply lookup_replicate_2.
  - exact Hfield.
  - intros k z Hv. rewrite (Hfield k _ Hv). simpl. by apply lookup_replicate_2.
  - intros k r Hv. rewrite (Hfield k _ Hv). simpl. by apply lookup_replicate_2.
Qed.

End Emission.

Section EmissionWitness.

Lemma broadcast_and_emission_witness :
  ∃ y steps,
    _add_traj_metadata 3
      (<["obs" := Stack [Scalar 10; Scalar 11; Scalar 12; Scalar 13; Scalar 14]]>
         {["goal" := Scalar 9]}) = Ok y /\
    unbatch_record y = Some steps /\
    length steps = 5%nat /\
    ∀ j s, steps !! j = Some s ->
      s !! "goal" = Some (Scalar 9) /\ s !! "_i" = Some (Scalar 3) /\
      s !! "_len" = Some (Scalar 5).
Proof.
  destruct (broadcast_and_emission 3 5
              (<["obs" := Stack [Scalar 10; Scalar 11; Scalar 12; Scalar 13; Scalar 14]]>
                 {["goal" := Scalar 9]}))
    as (y & steps & Hy & _ & Hsteps & Hlen & Hall);
    [apply (bool_decide_unpack _); vm_compute; exact I | lia | lia
    | reflexivity | reflexivity |].
  exists y, steps. split; [exact Hy|]. split; [exact Hsteps|]. split; [exact Hlen|].
  intros j s Hs. destruct (Hall j s Hs) as (Hi & Hl & _ & Hscalar & _).
  split; [apply Hscalar; reflexivity|]. split; [exact Hi | exact Hl].
Defined.

End EmissionWitness.

(** ** Regrouping the steps of one trajectory *)

Section Regroup.

Lemma omap_fmap_list {A B C} (f : B -> option C) (g : A -> B) (l : list A) :
  omap f (g <$> l) = omap (fun a => f (g a)) l.
Proof. induction l as [|a l IH]; [done|]. csimpl. by rewrite IH. Qed.

Lemma omap_lookup_seq {A} (l : list A) :
  omap (fun j => l !! j) (seq 0 (length l)) = l.
Proof.
  induction l as [|a l IH]; [done|]. csimpl. f_equal.
  rewrite <- fmap_S_seq, omap_fmap_list. exact IH.
Qed.

Lemma omap_slices (y : Record) k rows (js : list nat) :
  y !! k = Some (Stack rows) ->
  omap (fun s : Record => s !! k) (slice_at y <$> js) = omap (fun j => rows !! j) js.
Proof.
  intros Hv. rewrite omap_fmap_list.
  induction js as [|j js IH]; [done|]. csimpl.
  rewrite IH, slice_at_lookup, Hv. done.
Qed.

(** Stacking the slices of a uniform record gives the record back. *)
Lemma stack_slices (y : Record) m :
  uniform y (S m) -> stack_records (slice_at y <$> seq 0 (S m)) = y.
Proof.
  intros Hy. apply map_eq. intros k.
  remember (slice_at y <$> seq 0 (S m)) as steps eqn:Hsteps.
  assert (∃ tl, steps = slice_at y 0 :: tl) as [tl Htl] by (subst steps; simpl; eauto).
  unfold stack_records. rewrite Htl. rewrite <- Htl.
  rewrite map_lookup_imap, slice_at_lookup.
  destruct (y !! k) as [v|] eqn:Hv; [|done]. simpl.
  destruct (Hy k v Hv) as (rows & -> & Hlen). simpl.
  destruct rows as [|r rows]; [done|]. simpl. do 2 f_equal.
  subst steps. rewrite (omap_slices y k (r :: rows)) by done.
  rewrite <- Hlen. apply omap_lookup_seq.
Qed.

Lemma chunks_exact {A} (m : nat) (l cur : list A) :
  l ≠ [] -> (length cur + length l = m)%nat -> chunks m cur l = [cur ++ l].
Proof.
  revert cur. induction l as [|a l IH]; intros cur Hne Hlen; [done|]. simpl.
  destruct l as [|b l].
  - simpl in *. rewrite length_app. simpl.
    rewrite (proj2 (Nat.eqb_eq _ _)) by lia. done.
  - rewrite length_app. simpl in *.
    rewrite (proj2 (Nat.eqb_neq _ _)) by lia.
    rewrite (IH (cur ++ [a])); [|done|rewrite length_app; simpl; lia].
    by rewrite <- app_assoc.
Qed.

Lemma batch_exact (n : Z) (d : list Record) :
  0 < n -> d ≠ [] -> length d = Z.to_nat n -> batch n d = Some [stack_records d].
Proof.
  intros Hn Hne Hlen. unfold batch.
  rewrite (proj2 (Z.leb_gt _ _)) by lia.
  by rewrite (chunks_exact (Z.to_nat n) d []).
Qed.

(** One window: the steps all have key [k], whose window size is their
    number; [pre] is what the open window of [k] already holds. *)
Lemma group_by_window_one_window (k : Z) (rest pre : list Record)
    (buffers : gmap Z (list Record)) :
  Forall (fun s => key_func s = Some k) rest -> rest ≠ [] ->
  window_size_func k = Z.of_nat (length pre + length rest) ->
  default [] (buffers !! k) = pre -> delete k buffers = ∅ ->
  group_by_window_from buffers rest = reduce_func k (pre ++ rest).
Proof.
  revert pre buffers. induction rest as [|s rest IH]; intros pre buffers Hkeys Hne Hw Hpre Hdel;
    [done|].
  apply Forall_cons in Hkeys as [Hs Hkeys]. simpl. rewrite Hs. simpl.
  rewrite Hpre, length_app. change (length [s]) with 1%nat.
  change (length (s :: rest)) with (S (length rest)) in Hw.
  rewrite (proj2 (Z.leb_gt _ _)) by lia.
  destruct rest as [|s' rest].
  - rewrite (proj2 (Z.leb_le _ _)) by (simpl in Hw; lia).
    rewrite Hdel. simpl. rewrite map_to_list_empty. simpl.
    destruct (reduce_func k (pre ++ [s])); simpl; [by rewrite app_nil_r | done].
  - change (length (s' :: rest)) with (S (length rest)) in Hw.
    rewrite (proj2 (Z.leb_gt _ _)) by lia.
    rewrite (IH (pre ++ [s])); [by rewrite <- app_assoc | done | done | | |].
    + rewrite Hw, length_app. simpl. f_equal. lia.
    + by rewrite lookup_insert_eq.
    + by rewrite delete_insert_eq.
Qed.

End Regroup.

Section RegroupKeys.

Lemma key_func_slice i n (x : Record) j :
  (j < Z.to_nat n)%nat ->
  key_func (slice_at (tagged i n x) j) = Some (composite_key n i).
Proof.
  intros Hj. unfold key_func.
  rewrite !slice_at_lookup, tagged_lookup_i, tagged_lookup_len. simpl.
  by rewrite !lookup_replicate_2.
Qed.

Lemma window_size_in_budget n i :
  0 <= i < 2 ^ 51 -> 0 <= n < 2 ^ 12 -> window_size_func (composite_key n i) = n.
Proof.
  intros Hi Hn. destruct (key_asserts_in_budget n i Hi Hn) as [_ Hd].
  by apply Z.eqb_eq in Hd.
Qed.

End RegroupKeys.

(** * The plan of [make_dataset] *)

Section PlanClaims.

Variable random_shuffle : Z -> list string -> list string.

(** C9 (transform ordering flag).  With [traj_transforms_first] the plan
    has no [group_by_window] stage: the trajectory transforms are applied
    once, to the tagged trajectories, before the only [unbatch], and after
    the frame transforms only the output stages follow.  Without it the
    plan unbatches, applies the frame transforms, regroups with
    [group_by_window], applies the trajectory transforms once and unbatches
    again. *)
Theorem traj_transforms_first_skips_regroup
    (glob : list string) (seed batch_size shuffle_buffer_size : Z)
    (traj_transforms_first : bool) (plan : list Stage) :
  make_dataset random_shuffle glob seed batch_size shuffle_buffer_size traj_transforms_first
    = Some plan ->
  count_stage is_traj_transforms plan = 1%nat /\
  if traj_transforms_first then
    count_stage is_group_by_window plan = 0%nat /\
    count_stage is_unbatch plan = 1%nat /\
    ∃ pre post,
      plan = pre ++ [MapAddTrajMetadata; ApplyTransforms traj_transforms false; Unbatch;
                     ApplyTransforms frame_transforms false] ++ post /\
      forallb is_output_stage post = true
  else
    count_stage is_group_by_window plan = 1%nat /\
    count_stage is_unbatch plan = 2%nat /\
    ∃ pre post,
      plan = pre ++ [MapAddTrajMetadata; Unbatch; ApplyTransforms frame_transforms true;
                     GroupByWindow; ApplyTransforms traj_transforms false; Unbatch] ++ post /\
      forallb is_output_stage post = true.
Proof.
  unfold make_dataset. intros Hplan.
  destruct (if 1 <? shuffle_buffer_size then random_shuffle seed glob else glob)
    as [|first paths]; [done|].
  injection Hplan as <-.
  destruct traj_transforms_first, (1 <? shuffle_buffer_size); simpl;
    (split; [reflexivity|]); (split; [reflexivity|]); (split; [reflexivity|]);
    eexists [_; _; _; _], _; split; reflexivity.
Qed.

(** C10 (shuffle buffer size and the shard paths).  With a shuffle buffer
    size of 1 or less the plan reads the shards in the order of the glob,
    probes the schema on the first globbed shard and has no shuffle stage.
    With a larger size it reads the shards in the order
    [random_shuffle seed glob], probes the schema on the first shard of that
    shuffled list and has one shuffle stage, of that size and seed. *)
Theorem shuffle_buffer_size_gates_path_shuffle
    (glob : list string) (seed batch_size shuffle_buffer_size : Z)
    (traj_transforms_first : bool) (plan : list Stage) :
  make_dataset random_shuffle glob seed batch_size shuffle_buffer_size traj_transforms_first
    = Some plan ->
  let paths := if bool_decide (shuffle_buffer_size <= 1) then glob
               else random_shuffle seed glob in
  plan !! 0%nat = Some (TFRecordDataset paths) /\
  (∃ first, head paths = Some first /\ plan !! 2%nat = Some (MapDecodeExample first)) /\
  List.filter is_shuffle plan =
    if bool_decide (shuffle_buffer_size <= 1) then []
    else [Shuffle shuffle_buffer_size seed].
Proof.
  unfold make_dataset. intros Hplan. simpl.
  destruct (Z.ltb_spec 1 shuffle_buffer_size) as [Hlt|Hle].
  - rewrite bool_decide_eq_false_2 by lia.
    destruct (random_shuffle seed glob) as [|first paths]; [done|].
    injection Hplan as <-.
    split; [reflexivity|]. split; [by exists first|].
    by destruct traj_transforms_first.
  - rewrite bool_decide_eq_true_2 by lia.
    destruct glob as [|first paths]; [done|].
    injection Hplan as <-.
    split; [reflexivity|]. split; [by exists first|].
    by destruct traj_transforms_first.
Qed.

End PlanClaims.

Section PlanWitnesses.

Lemma traj_transforms_first_skips_regroup_witness :
  ∃ plan,
    make_dataset rotate_by ["a.tfrecord"; "b.tfrecord"] 0 32 25000 true = Some plan /\
    count_stage is_traj_transforms plan = 1%nat /\
    count_stage is_group_by_window plan = 0%nat.
Proof.
  eexists. split; [reflexivity|].
  destruct (traj_transforms_first_skips_regroup rotate_by
              ["a.tfrecord"; "b.tfrecord"] 0 32 25000 true _ eq_refl) as (Ht & Hg & _).
  split; [exact Ht | exact Hg].
Defined.

Lemma shuffle_buffer_size_gates_path_shuffle_witness :
  ∃ plan,
    make_dataset rotate_by ["a.tfrecord"; "b.tfrecord"] 1 32 25000 false = Some plan /\
    plan !! 0%nat = Some (TFRecordDataset ["b.tfrecord"; "a.tfrecord"]) /\
    plan !! 2%nat = Some (MapDecodeExample "b.tfrecord").
Proof.
  eexists. split; [reflexivity|].
  destruct (shuffle_buffer_size_gates_path_shuffle rotate_by
              ["a.tfrecord"; "b.tfrecord"] 1 32 25000 false _ eq_refl)
    as (Hsrc & (first & Hfirst & Hprobe) & _).
  vm_compute in Hfirst. injection Hfirst as <-.
  split; [exact Hsrc | exact Hprobe].
Defined.

End PlanWitnesses.

(** * The specification's end-to-end scenario *)

Section Scenario.

Example three_trajectories :
  ∃ ys steps,
    enumerate_map_from 0 scenario_stream = Ok ys /\
    unbatch ys = Some steps /\
    field_of_steps "_i" steps = Some <$> (Scalar <$> [0; 0; 1; 2; 2; 2]) /\
    field_of_steps "_len" steps = Some <$> (Scalar <$> [2; 2; 1; 3; 3; 3]) /\
    group_by_window steps = Some ys.
Proof.
  eexists _, _. split; [vm_compute; reflexivity|].
  split; [vm_compute; reflexivity|].
  split; [vm_compute; reflexivity|].
  split; vm_compute; reflexivity.
Qed.

End Scenario.

(** * Further properties of the tagger *)

Section TaggerAcceptance.

(** The first assertion passes only on a record whose fields agree. *)
Lemma lens_assert_consistent (x : Record) n :
  canonical_length x = Some n ->
  lens_assert (snd <$> broadcast_all n x) = true ->
  lens_consistent x n.
Proof.
  intros Hc Hlens. split; [done|].
  apply lens_assert_spec in Hlens as (c & _ & Hall).
  pose proof Hc as [(k0 & v0 & Hv0 & Hs0) _]%canonical_length_spec.
  assert (Hcn : c = n).
  { rewrite <- (Hall _ _ Hv0). destruct v0 as [z|rows]; [done|]. simplify_eq/=.
    destruct (decide (length rows = 1%nat)) as [H1|H1].
    - destruct rows as [|r [|? ?]]; try done.
    - by rewrite broadcast_entry_other. }
  subst c. intros k v Hv. simpl. destruct v as [z|rows]; [by left|]. right.
  destruct (decide (length rows = 1%nat)) as [H1|H1].
  - left. simpl. by rewrite H1.
  - right. specialize (Hall _ _ Hv). rewrite broadcast_entry_other in Hall by done.
    simpl in *. by rewrite Hall.
Qed.

(** What a returned record tells about the input. *)
Lemma tagger_inversion (i : Z) (x y : Record) :
  _add_traj_metadata i x = Ok y ->
  ∃ n, lens_consistent x n /\ 0 <= i < 2 ^ 51 /\ 0 <= n < 2 ^ 12 /\
       x !! "_i" = None /\ x !! "_len" = None /\ y = tagged i n x.
Proof.
  destruct (canonical_length x) as [n|] eqn:Hc;
    [|unfold _add_traj_metadata; by rewrite Hc].
  rewrite (tagger_unfold i n x Hc).
  destruct (reserved_assert x) eqn:Hr; [|done]. simpl.
  destruct (lens_assert _) eqn:Hlens; [|done]. simpl.
  destruct (key_mod_assert n i) eqn:Hm; [|done].
  destruct (key_div_assert n i) eqn:Hd; [|done]. simpl.
  intros [= <-]. exists n.
  pose proof (canonical_length_nonneg _ _ Hc) as Hn0.
  destruct (key_asserts_budget n i Hn0 Hm Hd) as [Hi Hn].
  apply reserved_assert_true in Hr as [Hri Hrl].
  split; [by apply lens_assert_consistent|].
  split; [done|]. split; [lia|]. done.
Qed.

(** X1.  Two trajectories within the budgets that differ in length or in
    index get different keys. *)
Theorem composite_key_injective (n i n' i' : Z) :
  0 <= i < 2 ^ 51 -> 0 <= n < 2 ^ 12 -> 0 <= i' < 2 ^ 51 -> 0 <= n' < 2 ^ 12 ->
  n ≠ n' \/ i ≠ i' ->
  composite_key n i ≠ composite_key n' i'.
Proof.
  intros Hi Hn Hi' Hn' Hne Hk.
  rewrite !composite_key_exact in Hk by done.
  assert (n = n') as <- by (destruct (Z.lt_trichotomy n n') as [?|[?|?]]; [|done|]; lia).
  destruct Hne; [done | lia].
Qed.

Lemma composite_key_injective_witness :
  composite_key 2 0 ≠ composite_key 1 (2 ^ 51 - 1).
Proof. apply (composite_key_injective 2 0 1 (2 ^ 51 - 1)); lia. Defined.

(** X2.  The tagger returns a record exactly on an input whose fields
    agree on a length [n < 2^12], at an index in [[0, 2^51)], without a
    field [_i] or [_len]. *)
Theorem tagger_accepts_iff (i : Z) (x : Record) :
  is_Ok (_add_traj_metadata i x) <->
  ∃ n, lens_consistent x n /\ 0 <= i < 2 ^ 51 /\ n < 2 ^ 12 /\
       x !! "_i" = None /\ x !! "_len" = None.
Proof.
  split.
  - destruct (_add_traj_metadata i x) as [y|e] eqn:Hy; [|done]. intros _.
    apply tagger_inversion in Hy as (n & Hx & Hi & Hn & Hri & Hrl & _).
    exists n. split; [done|]. split; [done|]. split; [lia|]. done.
  - intros (n & Hx & Hi & Hn & Hri & Hrl). by rewrite (tagger_accepts i n x).
Qed.

(** X3.  The length assertion is the one that fails exactly on a record
    without a field [_i] or [_len] in which some field has a leading
    dimension that is neither 1 nor the maximal one; a field with no rows
    beside a field with one row is such a case. *)
Theorem length_mismatch_iff (i : Z) (x : Record) :
  _add_traj_metadata i x = Err LengthMismatchError <->
  x !! "_i" = None /\ x !! "_len" = None /\
  ∃ n k rows, canonical_length x = Some n /\ x !! k = Some (Stack rows) /\
              length rows ≠ 1%nat /\ Z.of_nat (length rows) ≠ n.
Proof.
  split.
  - destruct (canonical_length x) as [n|] eqn:Hc;
      [|unfold _add_traj_metadata; by rewrite Hc].
    rewrite (tagger_unfold i n x Hc).
    destruct (reserved_assert x) eqn:Hr; [|done]. simpl.
    apply reserved_assert_true in Hr as [Hri Hrl].
    destruct (lens_assert _) eqn:Hlens; simpl.
    { by destruct (key_mod_assert n i && key_div_assert n i). }
    intros _. split; [done|]. split; [done|]. exists n.
    destruct (decide (lens_consistent x n)) as [Hx|Hx].
    { by rewrite lens_consistent_assert in Hlens. }
    assert (Hnot : ¬ map_Forall (fun (_ : string) v =>
              tf_shape0 v = None \/ tf_shape0 v = Some 1 \/ tf_shape0 v = Some n) x).
    { intros Hall. apply Hx. by split. }
    apply map_not_Forall in Hnot as (k & v & Hv & Hbad); [|apply _].
    destruct v as [z|rows]; [by destruct Hbad; left|].
    exists k, rows. split; [done|]. split; [done|]. simpl in Hbad.
    split; intros Hl; apply Hbad; right; [left | right]; by rewrite Hl.
  - intros (Hri & Hrl & n & k & rows & Hc & Hv & H1 & Hn).
    rewrite (tagger_unfold i n x Hc), (proj2 (reserved_assert_true x)) by done. simpl.
    destruct (lens_assert _) eqn:Hlens; [|done].
    destruct (lens_assert_consistent x n Hc Hlens) as [_ Hall].
    destruct (Hall k _ Hv) as [?|[?|?]]; simplify_eq/=; lia.
Qed.

End TaggerAcceptance.

Section TaggerOutput.

(** X4.  A returned record has the fields of the input and the two new
    fields [_i] and [_len], and no other. *)
Theorem tagged_fields (i : Z) (x y : Record) :
  _add_traj_metadata i x = Ok y ->
  dom y = {["_i"; "_len"]} ∪ dom x /\ ("_i" ∉ dom x) /\ ("_len" ∉ dom x).
Proof.
  intros (n & _ & _ & _ & Hri & Hrl & ->)%tagger_inversion.
  split; [|by rewrite !not_elem_of_dom].
  unfold tagged, broadcast_all. rewrite !dom_insert_L, !dom_fmap_L. set_solver.
Qed.

Lemma tagged_fields_witness :
  ∃ y, _add_traj_metadata 0 {["obs" := Stack [Scalar 1; Scalar 2]]} = Ok y /\
       dom y = {["_i"; "_len"]} ∪ {["obs"]}.
Proof.
  eexists. split; [vm_compute; reflexivity|].
  rewrite <- (dom_singleton_L (M := gmap string) "obs" (Stack [Scalar 1; Scalar 2])).
  apply (tagged_fields 0 {["obs" := Stack [Scalar 1; Scalar 2]]}). vm_compute. reflexivity.
Defined.

(** X5.  A trajectory without steps (every non-scalar field has no rows) is
    accepted, but flattening it yields no step, so regrouping returns no
    trajectory for it. *)
Theorem zero_length_trajectory_vanishes (i : Z) (x : Record) :
  lens_consistent x 0 -> 0 <= i < 2 ^ 51 ->
  x !! "_i" = None -> x !! "_len" = None ->
  ∃ y, _add_traj_metadata i x = Ok y /\
       unbatch [y] = Some [] /\
       (unbatch [y] ≫= group_by_window) = Some [].
Proof.
  intros Hx Hi Hri Hrl. exists (tagged i 0 x).
  split; [apply tagger_accepts; (done || lia)|].
  assert (Hu : unbatch [tagged i 0 x] = Some []).
  { simpl. rewrite (unbatch_record_uniform _ (Z.to_nat 0));
      [done | by apply tagged_uniform | apply tagged_nonempty]. }
  split; [done|]. rewrite Hu. simpl. unfold group_by_window. simpl.
  by rewrite map_to_list_empty.
Qed.

Lemma zero_length_trajectory_vanishes_witness :
  ∃ y, _add_traj_metadata 4 (<["obs" := Stack []]> {["goal" := Scalar 9]}) = Ok y /\
       unbatch [y] = Some [] /\
       (unbatch [y] ≫= group_by_window) = Some [].
Proof.
  apply (zero_length_trajectory_vanishes 4 (<["obs" := Stack []]> {["goal" := Scalar 9]}));
    [apply (bool_decide_unpack _); vm_compute; exact I | lia | reflexivity | reflexivity].
Defined.

End TaggerOutput.

(** * Streams of trajectories *)

Section Streams.

(** X6.  Tagging a stream of trajectories from index [i] on returns as many
    records as it was given, and the trajectory at position [j] is tagged
    with the index [i + j], which lies in [[0, 2^51)]. *)
Theorem enumerate_assigns_consecutive_indices (i : Z) (ds ys : list Record) :
  enumerate_map_from i ds = Ok ys ->
  length ys = length ds /\
  ∀ (j : nat) x, ds !! j = Some x ->
    0 <= i + Z.of_nat j < 2 ^ 51 /\
    ∃ n, lens_consistent x n /\ ys !! j = Some (tagged (i + Z.of_nat j) n x).
Proof.
  revert i ys. induction ds as [|x ds IH]; intros i ys Hys; simpl in Hys.
  - injection Hys as <-. split; [done|]. intros j x Hj. by rewrite lookup_nil in Hj.
  - destruct (_add_traj_metadata i x) as [y|e] eqn:Hy; [|done].
    destruct (enumerate_map_from (i + 1) ds) as [ys'|e] eqn:Hys'; [|done].
    injection Hys as <-. destruct (IH _ _ Hys') as [Hlen Hall].
    split; [simpl; by rewrite Hlen|].
    apply tagger_inversion in Hy as (n & Hx & Hi & _ & _ & _ & ->).
    intros [|j] x' Hj; simpl in Hj.
    + injection Hj as <-. rewrite Z.add_0_r. split; [done|]. by exists n.
    + destruct (Hall j x' Hj) as [Hb (n' & Hx' & Hy')].
      replace (i + Z.of_nat (S j)) with (i + 1 + Z.of_nat j) by lia. split; [done|].
      by exists n'.
Qed.

Lemma enumerate_assigns_consecutive_indices_witness :
  ∃ ys, enumerate_map_from 0 scenario_stream = Ok ys /\ length ys = 3%nat.
Proof.
  eexists. split; [vm_compute; reflexivity|].
  apply (enumerate_assigns_consecutive_indices 0 scenario_stream). vm_compute. reflexivity.
Defined.

(** A window that fills up in front of the rest of the stream. *)
Lemma group_by_window_window_then (k : Z) (w pre rest : list Record)
    (buffers : gmap Z (list Record)) :
  Forall (fun s => key_func s = Some k) w -> w ≠ [] ->
  window_size_func k = Z.of_nat (length pre + length w) ->
  default [] (buffers !! k) = pre ->
  group_by_window_from buffers (w ++ rest) =
  out ← reduce_func k (pre ++ w);
  outs ← group_by_window_from (delete k buffers) rest;
  Some (out ++ outs).
Proof.
  revert pre buffers. induction w as [|s w IH]; intros pre buffers Hkeys Hne Hw Hpre; [done|].
  apply Forall_cons in Hkeys as [Hs Hkeys]. simpl. rewrite Hs. simpl.
  rewrite Hpre, length_app. change (length [s]) with 1%nat.
  change (length (s :: w)) with (S (length w)) in Hw.
  rewrite (proj2 (Z.leb_gt _ _)) by lia.
  destruct w as [|s' w].
  - rewrite (proj2 (Z.leb_le _ _)) by (simpl in Hw; lia). done.
  - change (length (s' :: w)) with (S (length w)) in Hw.
    rewrite (proj2 (Z.leb_gt _ _)) by lia.
    rewrite (IH (pre ++ [s])); [|done|done| |].
    + rewrite <- app_assoc. simpl. by rewrite delete_insert_eq.
    + rewrite Hw, length_app. simpl. f_equal. lia.
    + by rewrite lookup_insert_eq.
Qed.

Lemma reduce_func_tagged (i n : Z) (x : Record) :
  lens_consistent x n -> 1 <= n < 2 ^ 12 -> 0 <= i < 2 ^ 51 ->
  reduce_func (composite_key n i) (slice_at (tagged i n x) <$> seq 0 (Z.to_nat n))
  = Some [tagged i n x].
Proof.
  intros Hx Hn Hi. unfold reduce_func.
  change (Int64.floordiv (composite_key n i) (2 ^ _TRAJ_IDX_ENCODING_BITS))
    with (window_size_func (composite_key n i)).
  rewrite window_size_in_budget by lia.
  destruct (Z.to_nat n) as [|m] eqn:Hm; [lia|].
  rewrite batch_exact; [|lia|done|by rewrite length_fmap, length_seq].
  do 2 f_equal. apply stack_slices. rewrite <- Hm. by apply tagged_uniform.
Qed.

(** X7.  Tagging a stream of trajectories that all have at least one step,
    flattening it and regrouping the steps with [group_by_window] gives the
    tagged trajectories back, each one whole and in the order of the
    stream. *)
Theorem regroup_stream (i : Z) (ds ys : list Record) :
  enumerate_map_from i ds = Ok ys ->
  Forall (fun x => canonical_length x ≠ Some 0) ds ->
  ∃ steps, unbatch ys = Some steps /\ group_by_window steps = Some ys.
Proof.
  revert i ys. induction ds as [|x ds IH]; intros i ys Hys Hpos; simpl in Hys.
  - injection Hys as <-. exists []. split; [done|].
    unfold group_by_window. simpl. by rewrite map_to_list_empty.
  - apply Forall_cons in Hpos as [Hx0 Hpos].
    destruct (_add_traj_metadata i x) as [y|e] eqn:Hy; [|done].
    destruct (enumerate_map_from (i + 1) ds) as [ys'|e] eqn:Hys'; [|done].
    injection Hys as <-. destruct (IH _ _ Hys' Hpos) as (steps' & Hsteps' & Hback).
    apply tagger_inversion in Hy as (n & Hx & Hi & Hn & _ & _ & ->).
    assert (Hn1 : 1 <= n).
    { destruct Hx as [Hc _]. destruct (decide (n = 0)) as [->|]; [done | lia]. }
    set (y := tagged i n x). set (w := slice_at y <$> seq 0 (Z.to_nat n)).
    exists (w ++ steps'). split.
    + simpl. rewrite (unbatch_record_uniform y (Z.to_nat n));
        [|by apply tagged_uniform | apply tagged_nonempty].
      simpl. by rewrite Hsteps'.
    + assert (Hlen : length w = Z.to_nat n) by (unfold w; by rewrite length_fmap, length_seq).
      unfold group_by_window.
      rewrite (group_by_window_window_then (composite_key n i) w []).
      * simpl. unfold w, y. rewrite reduce_func_tagged by (done || lia). simpl.
        rewrite delete_empty. unfold group_by_window in Hback. by rewrite Hback.
      * apply Forall_lookup. intros j s [-> Hj]%steps_lookup. by apply key_func_slice.
      * intros He. rewrite He in Hlen. simpl in Hlen. lia.
      * rewrite window_size_in_budget by lia. simpl. lia.
      * by rewrite lookup_empty.
Qed.

Lemma regroup_stream_witness :
  ∃ ys steps, enumerate_map_from 0 scenario_stream = Ok ys /\
              unbatch ys = Some steps /\ group_by_window steps = Some ys.
Proof.
  eexists.
  destruct (regroup_stream 0 scenario_stream _ eq_refl) as (steps & Hs & Hback).
  - repeat constructor; vm_compute; discriminate.
  - exists steps. split; [reflexivity|]. split; [exact Hs | exact Hback].
Defined.

End Streams.

(** * One trajectory inside a stream *)

Section RegroupClaim.

(** Steps of one key that do not fill its window stay in the window. *)
Lemma group_by_window_partial (k : Z) (w pre rest : list Record)
    (buffers : gmap Z (list Record)) :
  Forall (fun s => key_func s = Some k) w -> w ≠ [] ->
  Z.of_nat (length pre + length w) < window_size_func k ->
  default [] (buffers !! k) = pre ->
  group_by_window_from buffers (w ++ rest) =
  group_by_window_from (<[k := pre ++ w]> buffers) rest.
Proof.
  revert pre buffers. induction w as [|s w IH]; intros pre buffers Hkeys Hne Hw Hpre; [done|].
  apply Forall_cons in Hkeys as [Hs Hkeys]. simpl. rewrite Hs. simpl.
  rewrite Hpre, length_app. change (length [s]) with 1%nat.
  change (length (s :: w)) with (S (length w)) in Hw.
  rewrite (proj2 (Z.leb_gt _ _)) by lia.
  rewrite (proj2 (Z.leb_gt _ _)) by lia.
  destruct w as [|s' w]; [done|].
  rewrite (IH (pre ++ [s])); [|done|done| |].
  - by rewrite insert_insert_eq, <- app_assoc.
  - rewrite length_app. simpl in *. lia.
  - by rewrite lookup_insert_eq.
Qed.

(** A step of a key whose window it does not fill joins that window. *)
Lemma group_by_window_foreign (k' : Z) (s' : Record) (rest : list Record)
    (buffers : gmap Z (list Record)) :
  key_func s' = Some k' ->
  Z.of_nat (length (default [] (buffers !! k')) + 1) < window_size_func k' ->
  group_by_window_from buffers (s' :: rest) =
  group_by_window_from (<[k' := default [] (buffers !! k') ++ [s']]> buffers) rest.
Proof.
  intros Hs Hw. simpl. rewrite Hs. simpl. rewrite length_app.
  change (length [s']) with 1%nat.
  rewrite (proj2 (Z.leb_gt _ _)) by lia.
  by rewrite (proj2 (Z.leb_gt _ _)) by lia.
Qed.

(** C2 (regrouping round-trip).  A trajectory of length [n] between 1 and
    4095, with index [i] below [2^51], is tagged into a record [y] that
    holds the fields of [x] broadcast to [n] rows and [_len] equal to [n]
    in every row.  Flattening [y] gives [n] steps, which all have the key
    [composite_key n i], and the window size read off that key, its
    floordiv by [2^51], is [n].  Regrouping the steps by [group_by_window]
    gives back exactly one batch, which is [y]; and this holds inside a
    stream too: whatever windows of other keys are open and whatever steps
    follow, the steps of the trajectory are emitted as the one batch [y]
    and leave the other windows as they are, also when a step of another
    key, which stays in its own window, comes between them. *)
Theorem regroup_roundtrip (i n : Z) (x : Record) :
  lens_consistent x n -> 1 <= n <= 4095 -> 0 <= i < 2 ^ 51 ->
  x !! "_i" = None -> x !! "_len" = None ->
  ∃ y steps,
    _add_traj_metadata i x = Ok y /\
    unbatch [y] = Some steps /\
    length steps = Z.to_nat n /\
    group_by_window steps = Some [y] /\
    y !! "_len" = Some (Stack (replicate (Z.to_nat n) (Scalar n))) /\
    (∀ k v, x !! k = Some v -> y !! k = Some (Stack (repeated_rows (Z.to_nat n) v))) /\
    Forall (fun s => key_func s = Some (composite_key n i)) steps /\
    window_size_func (composite_key n i) = n /\
    (∀ (buffers : gmap Z (list Record)) (later : list Record),
       buffers !! composite_key n i = None ->
       group_by_window_from buffers (steps ++ later) =
       outs ← group_by_window_from buffers later; Some (y :: outs)) /\
    (∀ (buffers : gmap Z (list Record)) (j : nat) (s' : Record) (k' : Z)
       (later : list Record),
       buffers !! composite_key n i = None ->
       (0 < j < Z.to_nat n)%nat ->
       key_func s' = Some k' -> k' ≠ composite_key n i ->
       Z.of_nat (length (default [] (buffers !! k')) + 1) < window_size_func k' ->
       group_by_window_from buffers (take j steps ++ s' :: drop j steps ++ later) =
       outs ← group_by_window_from (<[k' := default [] (buffers !! k') ++ [s']]> buffers) later;
       Some (y :: outs)).
Proof.
  intros Hx Hn Hi Hri Hrl.
  set (k := composite_key n i).
  set (y := tagged i n x). set (steps := slice_at y <$> seq 0 (Z.to_nat n)).
  assert (Hlen : length steps = Z.to_nat n) by (unfold steps; by rewrite length_fmap, length_seq).
  assert (Huni : uniform y (Z.to_nat n)) by by apply tagged_uniform.
  assert (Hkeys : Forall (fun s => key_func s = Some k) steps).
  { apply Forall_lookup. intros j s [-> Hj]%steps_lookup. by apply key_func_slice. }
  assert (Hw : window_size_func k = n) by (apply window_size_in_budget; lia).
  assert (Hred : reduce_func k steps = Some [y]) by (apply reduce_func_tagged; (done || lia)).
  assert (Hne : steps ≠ []) by (intros He; rewrite He in Hlen; simpl in Hlen; lia).
  assert (Hthen : ∀ (buffers : gmap Z (list Record)) (later : list Record),
            buffers !! k = None ->
            group_by_window_from buffers (steps ++ later) =
            outs ← group_by_window_from buffers later; Some (y :: outs)).
  { intros buffers later Hb.
    rewrite (group_by_window_window_then k steps []); [| done | done | | by rewrite Hb].
    - simpl. rewrite Hred. simpl. by rewrite (delete_id _ _ Hb).
    - rewrite Hw, Hlen. simpl. lia. }
  exists y, steps.
  split; [apply tagger_accepts; (done || lia)|].
  split.
  { simpl. rewrite (unbatch_record_uniform y (Z.to_nat n) Huni (tagged_nonempty i n x)).
    simpl. by rewrite app_nil_r. }
  split; [done|].
  split.
  { unfold group_by_window. rewrite <- (app_nil_r steps).
    rewrite (Hthen ∅ []) by apply lookup_empty. simpl. by rewrite map_to_list_empty. }
  split; [apply tagged_lookup_len|].
  split; [intros k0 v Hv; by apply tagged_lookup_field|].
  split; [done|]. split; [done|]. split; [exact Hthen|].
  intros buffers j s' k' later Hb Hj Hs' Hk' Hw'.
  assert (Htake : length (take j steps) = j) by (rewrite length_take; lia).
  assert (Hdrop : length (drop j steps) = (Z.to_nat n - j)%nat) by (rewrite length_drop; lia).
  rewrite (group_by_window_partial k (take j steps) []);
    [| by apply Forall_take | | | by rewrite Hb].
  2:{ intros He. rewrite He in Htake. simpl in Htake. lia. }
  2:{ rewrite Hw, Htake. simpl. lia. }
  rewrite app_nil_l.
  rewrite (group_by_window_foreign k'); [| done | by rewrite lookup_insert_ne].
  rewrite lookup_insert_ne by done.
  rewrite (group_by_window_window_then k (drop j steps) (take j steps));
    [| by apply Forall_drop | | | ].
  - rewrite take_drop, Hred. simpl.
    rewrite delete_insert_ne by done. rewrite delete_insert_eq, (delete_id _ _ Hb). done.
  - intros He. rewrite He in Hdrop. simpl in Hdrop. lia.
  - rewrite Hw, Htake, Hdrop. lia.
  - by rewrite lookup_insert_ne, lookup_insert_eq.
Qed.

Lemma regroup_roundtrip_witness :
  ∃ y steps,
    _add_traj_metadata 8
      (<["obs" := Stack [Scalar 10; Scalar 11; Scalar 12]]> {["goal" := Scalar 9]}) = Ok y /\
    unbatch [y] = Some steps /\
    length steps = 3%nat /\
    group_by_window steps = Some [y] /\
    window_size_func (composite_key 3 8) = 3.
Proof.
  destruct (regroup_roundtrip 8 3
              (<["obs" := Stack [Scalar 10; Scalar 11; Scalar 12]]> {["goal" := Scalar 9]}))
    as (y & steps & Hy & Hsteps & Hlen & Hback & _ & _ & _ & Hw & _);
    [apply (bool_decide_unpack _); vm_compute; exact I | lia | lia
    | reflexivity | reflexivity |].
  exists y, steps. split; [exact Hy|]. split; [exact Hsteps|]. split; [exact Hlen|].
  split; [exact Hback | exact Hw].
Defined.

End RegroupClaim.

(** * Schema probing and decoding *)

Section MapTry.

Context {A B : Type}.
Implicit Types (f : string -> A -> option B) (m : gmap string A) (r : gmap string B).

Lemma map_try_spec f m r :
  map_try f m = Some r <->
  ∀ k, match m !! k with
       | Some a => ∃ b, f k a = Some b /\ r !! k = Some b
       | None => r !! k = None
       end.
Proof.
  unfold map_try. split.
  - case_bool_decide as Hall; [|done]. intros [= <-] k. rewrite map_lookup_imap.
    destruct (m !! k) as [a|] eqn:Ha; [|done]. simpl.
    destruct (Hall k a Ha) as [b Hb]. eauto.
  - intros Hr. rewrite bool_decide_eq_true_2.
    + f_equal. apply map_eq. intros k. rewrite map_lookup_imap. specialize (Hr k).
      destruct (m !! k) as [a|]; simpl; [|done]. destruct Hr as (b & -> & ->). done.
    + intros k a Ha. specialize (Hr k). rewrite Ha in Hr. destruct Hr as (b & -> & _). eauto.
Qed.

Lemma map_try_None f m :
  map_try f m = None -> ∃ k a, m !! k = Some a /\ f k a = None.
Proof.
  unfold map_try. case_bool_decide as Hall; [done|]. intros _.
  apply map_not_Forall in Hall as (k & a & Ha & Hf); [|apply _].
  exists k, a. split; [done|]. destruct (f k a); [|done]. destruct Hf. eauto.
Qed.

Lemma map_try_dom f m r : map_try f m = Some r -> dom r = dom m.
Proof.
  intros Hr0. pose proof (proj1 (map_try_spec f m r) Hr0) as Hr.
  apply set_eq. intros k. rewrite !elem_of_dom.
  specialize (Hr k). destruct (m !! k) as [a|].
  - destruct Hr as (b & _ & ->). split; eauto.
  - rewrite Hr. split; intros [? ?]; done.
Qed.

End MapTry.

Section Decode.

Implicit Types (example : Example) (type_spec : gmap string TensorSpec).

Lemma parse_tensor_Some b out_type t :
  parse_tensor b out_type = Some t <-> tp_dtype b = out_type /\ t = b.
Proof.
  unfold parse_tensor. destruct (Z.eqb_spec (tp_dtype b) out_type); split;
    try intros [= <-]; try intros [? ->]; done.
Qed.

Lemma ensure_shape_Some t shape c :
  ensure_shape t shape = Some c <-> shape_compatible (tp_dims t) shape = true /\ c = t.
Proof.
  unfold ensure_shape. destruct (shape_compatible _ _); split;
    try intros [= <-]; try intros [? ->]; done.
Qed.

(** What a decoded record tells about the example, field by field. *)
Lemma decode_example_fields example type_spec r :
  _decode_example example type_spec = Some r ->
  ∀ key, match type_spec !! key with
         | Some spec =>
             ∃ p, example !! key = Some [p] /\ tp_dtype p = ts_dtype spec /\
                  shape_compatible (tp_dims p) (ts_shape spec) = true /\
                  r !! key = Some (tp_value p)
         | None => r !! key = None
         end.
Proof.
  unfold _decode_example, parse_single_example.
  case_bool_decide as Hempty; [done|].
  destruct (map_try _ type_spec) as [pf|] eqn:H1; [|done].
  destruct (map_try _ type_spec) as [pt|] eqn:H2 in |- *; [|done].
  destruct (map_try _ pt) as [ck|] eqn:H3; [|done].
  intros [= <-] key. rewrite lookup_fmap.
  pose proof (proj1 (map_try_spec _ _ _) H1 key) as K1.
  pose proof (proj1 (map_try_spec _ _ _) H2 key) as K2.
  pose proof (proj1 (map_try_spec _ _ _) H3 key) as K3.
  destruct (type_spec !! key) as [spec|] eqn:Hs.
  - destruct K1 as (b & Hb & Hpf). destruct K2 as (t & Ht & Hpt).
    rewrite Hpf in Ht. apply parse_tensor_Some in Ht as [Hd ->].
    rewrite Hpt in K3. destruct K3 as (c & Hc & Hck).
    rewrite Hs in Hc. apply ensure_shape_Some in Hc as [Hsh ->].
    exists b. rewrite Hck. simpl.
    destruct (example !! key) as [[|b' [|? ?]]|]; simplify_eq/=. done.
  - rewrite K2 in K3. by rewrite K3.
Qed.

Lemma decode_example_nonempty example type_spec r :
  _decode_example example type_spec = Some r -> type_spec ≠ ∅.
Proof.
  unfold _decode_example, parse_single_example. by case_bool_decide.
Qed.

(** X9.  Decoding succeeds exactly when the type spec has a field and
    every field of the type spec is in the example with exactly one
    serialized tensor, of the dtype of the spec and of a shape the spec
    admits; the decoded record then has the fields of the type spec, each
    holding that tensor.  An empty type spec is refused. *)
Theorem decode_example_iff example type_spec (r : Record) :
  _decode_example example type_spec = Some r <->
  type_spec ≠ ∅ /\
  dom r = dom type_spec /\
  ∀ key spec, type_spec !! key = Some spec ->
    ∃ p, example !! key = Some [p] /\ tp_dtype p = ts_dtype spec /\
         shape_compatible (tp_dims p) (ts_shape spec) = true /\
         r !! key = Some (tp_value p).
Proof.
  split.
  - intros Hr. pose proof (decode_example_fields _ _ _ Hr) as Hf.
    split; [by eapply decode_example_nonempty|]. split.
    + apply set_eq. intros key. rewrite !elem_of_dom. specialize (Hf key).
      destruct (type_spec !! key) as [spec|].
      * destruct Hf as (p & _ & _ & _ & ->). split; eauto.
      * rewrite Hf. split; intros [? ?]; done.
    + intros key spec Hs. specialize (Hf key). by rewrite Hs in Hf.
  - intros (Hne & Hdom & Hall).
    assert (Hsome : ∃ r', _decode_example example type_spec = Some r').
    { unfold _decode_example, parse_single_example.
      rewrite bool_decide_eq_false_2 by done.
      destruct (map_try _ type_spec) as [pf|] eqn:H1.
      2:{ apply map_try_None in H1 as (k & spec & Hs & Hk).
          destruct (Hall k spec Hs) as (p & Hp & _). by rewrite Hp in Hk. }
      destruct (map_try _ type_spec) as [pt|] eqn:H2 in |- *.
      2:{ apply map_try_None in H2 as (k & spec & Hs & Hk).
          destruct (Hall k spec Hs) as (p & Hp & Hd & _).
          pose proof (proj1 (map_try_spec _ _ _) H1 k) as K1. rewrite Hs, Hp in K1.
          destruct K1 as (b & [= <-] & Hpf). rewrite Hpf in Hk.
          unfold parse_tensor in Hk. rewrite (proj2 (Z.eqb_eq _ _) Hd) in Hk. done. }
      destruct (map_try _ pt) as [ck|] eqn:H3; [eauto|].
      apply map_try_None in H3 as (k & t & Ht & Hk).
      pose proof (proj1 (map_try_spec _ _ _) H1 k) as K1.
      pose proof (proj1 (map_try_spec _ _ _) H2 k) as K2.
      destruct (type_spec !! k) as [spec|] eqn:Hs; [|congruence].
      destruct (Hall k spec Hs) as (p & Hp & Hd & Hsh & _). rewrite Hp in K1.
      destruct K1 as (b & [= <-] & Hpf). rewrite Hpf in K2.
      destruct K2 as (t' & Ht' & Hpt). apply parse_tensor_Some in Ht' as [_ ->].
      rewrite Hpt in Ht. injection Ht as <-.
      unfold ensure_shape in Hk. by rewrite Hsh in Hk. }
    destruct Hsome as [r' Hr']. rewrite Hr'. f_equal. apply map_eq. intros key.
    pose proof (decode_example_fields _ _ _ Hr' key) as Hf.
    destruct (type_spec !! key) as [spec|] eqn:Hs.
    + destruct Hf as (p & Hp & _ & _ & ->).
      destruct (Hall key spec Hs) as (p' & Hp' & _ & _ & ->). congruence.
    + rewrite Hf. symmetry. apply not_elem_of_dom. rewrite Hdom. by apply not_elem_of_dom.
Qed.

End Decode.

Section DecodeEdges.

Implicit Types (example : Example) (type_spec : gmap string TensorSpec).

(** X10.  Decoding reads only the features that the type spec names: two
    examples that agree on them decode alike, whatever else they hold. *)
Theorem decode_ignores_other_features example example' type_spec :
  (∀ key, key ∈ dom type_spec -> example !! key = example' !! key) ->
  _decode_example example type_spec = _decode_example example' type_spec.
Proof.
  intros Hagree. apply option_eq. intros r. rewrite !decode_example_iff.
  split; intros (Hne & Hdom & Hall); (split; [done|]); (split; [done|]); intros key spec Hs;
    destruct (Hall key spec Hs) as (p & Hp & Hrest); exists p;
    (split; [|done]);
    [rewrite <- Hagree | rewrite Hagree]; try done; apply elem_of_dom; eauto.
Qed.

Lemma decode_ignores_other_features_witness :
  _decode_example
    {["obs" := [ {| tp_dtype := 1; tp_dims := [1]; tp_value := Stack [Scalar 5] |} ]]}
    {["obs" := {| ts_shape := [None]; ts_dtype := 1 |}]}
  = _decode_example
      (<["extra" := []]>
         {["obs" := [ {| tp_dtype := 1; tp_dims := [1]; tp_value := Stack [Scalar 5] |} ]]})
      {["obs" := {| ts_shape := [None]; ts_dtype := 1 |}]}.
Proof.
  apply decode_ignores_other_features. intros key Hkey.
  rewrite dom_singleton_L in Hkey. apply elem_of_singleton in Hkey as ->. reflexivity.
Defined.

(** X11.  A field of the type spec that the example lacks, or for which it
    holds no or several serialized tensors, makes decoding fail. *)
Theorem decode_missing_feature example type_spec key spec :
  type_spec !! key = Some spec ->
  (∀ p, example !! key ≠ Some [p]) ->
  _decode_example example type_spec = None.
Proof.
  intros Hs Hmiss. destruct (_decode_example example type_spec) as [r|] eqn:Hr; [|done].
  apply decode_example_iff in Hr as (_ & _ & Hall).
  destruct (Hall key spec Hs) as (p & Hp & _). by destruct (Hmiss p).
Qed.

Lemma decode_missing_feature_witness :
  _decode_example ∅ {["obs" := {| ts_shape := [None]; ts_dtype := 1 |}]} = None.
Proof.
  apply (decode_missing_feature ∅ _ "obs" {| ts_shape := [None]; ts_dtype := 1 |});
    [reflexivity | intros p; rewrite lookup_empty; discriminate].
Defined.

(** X12.  A decoded record takes its fields from the type spec, so when the
    type spec has a field [_i] or [_len] the tagger rejects every decoded
    record. *)
Theorem reserved_schema_never_tagged example type_spec (r : Record) (i : Z) :
  _decode_example example type_spec = Some r ->
  "_i" ∈ dom type_spec \/ "_len" ∈ dom type_spec ->
  ∃ e, _add_traj_metadata i r = Err e.
Proof.
  intros (_ & Hdom & _)%decode_example_iff Hres.
  destruct (_add_traj_metadata i r) as [y|e] eqn:Hy; [|eauto].
  apply tagger_inversion in Hy as (n & _ & _ & _ & Hri & Hrl & _).
  apply not_elem_of_dom in Hri, Hrl. rewrite Hdom in Hri, Hrl. by destruct Hres.
Qed.

Lemma reserved_schema_never_tagged_witness :
  ∃ e, _add_traj_metadata 0 {["_i" := Stack [Scalar 5]]} = Err e.
Proof.
  apply (reserved_schema_never_tagged
           {["_i" := [ {| tp_dtype := 9; tp_dims := [1]; tp_value := Stack [Scalar 5] |} ]]}
           {["_i" := {| ts_shape := [None]; ts_dtype := 9 |}]}).
  - vm_compute. reflexivity.
  - left. rewrite dom_singleton_L. by apply elem_of_singleton.
Defined.

End DecodeEdges.

Section Probe.

Implicit Types (example sample : Example) (type_spec : gmap string TensorSpec).

Lemma shape_compatible_known dims es :
  shape_compatible dims (Some <$> es) = true <-> dims = es.
Proof.
  revert es. induction dims as [|d dims IH]; intros [|e es]; simpl; try done.
  rewrite andb_true_iff, Z.eqb_eq, IH. split; [intros [-> ->]; done | intros [= -> ->]; done].
Qed.

Lemma shape_compatible_probed dims ds :
  shape_compatible dims (match Some <$> ds with [] => [] | _ :: rest => None :: rest end) = true
  <-> length dims = length ds /\ tail dims = tail ds.
Proof.
  destruct ds as [|d ds]; simpl.
  - destruct dims; simpl; split; try done. by intros [? _].
  - destruct dims as [|d0 dims]; simpl; [split; [done | by intros [? _]]|].
    rewrite shape_compatible_known. split; [intros ->; done | intros [_ ->]; done].
Qed.

Lemma get_type_spec_lookup example rest type_spec key :
  _get_type_spec (example :: rest) = Some type_spec ->
  match example !! key with
  | Some value => ∃ spec, feature_type_spec value = Some spec /\ type_spec !! key = Some spec
  | None => type_spec !! key = None
  end.
Proof. simpl. intros H. exact (proj1 (map_try_spec _ _ _) H key). Qed.

(** X13.  Probing succeeds exactly on a file with at least one record whose
    features all hold at least one bytes value; only the first record is
    read, and the type spec has the fields of that record. *)
Theorem get_type_spec_succeeds_iff (file : list Example) :
  (is_Some (_get_type_spec file) <->
   ∃ example rest, file = example :: rest /\
                   ∀ key value, example !! key = Some value -> value ≠ []) /\
  (∀ example rest, _get_type_spec (example :: rest) = _get_type_spec [example]) /\
  (∀ example rest type_spec,
     file = example :: rest -> _get_type_spec file = Some type_spec ->
     dom type_spec = dom example).
Proof.
  split; [|split].
  - destruct file as [|example rest]; simpl.
    + split; [by intros [? ?] | by intros (? & ? & ? & _)].
    + split.
      * intros [type_spec Hts]. exists example, rest. split; [done|].
        intros key value Hv ->.
        pose proof (proj1 (map_try_spec _ _ _) Hts key) as K. rewrite Hv in K.
        by destruct K as (? & ? & _).
      * intros (example' & rest' & [= <- <-] & Hall).
        destruct (map_try _ example) as [ts|] eqn:Hts; [eauto|].
        apply map_try_None in Hts as (key & value & Hv & Hnone).
        destruct value as [|data more]; [by destruct (Hall key [] Hv)|done].
  - done.
  - intros example rest type_spec -> Hts. simpl in Hts. by eapply map_try_dom.
Qed.

(** X14.  The shape probed from a serialized tensor admits exactly the
    run-time shapes of the same rank that agree with it after the first
    dimension; the dtype is that of the tensor.  So a scalar stays a scalar
    and only the trajectory length is free. *)
Theorem probed_shape_admits example rest type_spec key data more :
  _get_type_spec (example :: rest) = Some type_spec ->
  example !! key = Some (data :: more) ->
  ∃ spec, type_spec !! key = Some spec /\
          ts_dtype spec = tp_dtype data /\
          ∀ dims, shape_compatible dims (ts_shape spec) = true <->
                  length dims = length (tp_dims data) /\ tail dims = tail (tp_dims data).
Proof.
  intros Hts Hv. pose proof (get_type_spec_lookup _ _ _ key Hts) as K. rewrite Hv in K.
  destruct K as (spec & [= <-] & Hspec). eexists. split; [done|]. split; [done|].
  intros dims. simpl. apply shape_compatible_probed.
Qed.

Lemma probed_shape_admits_witness :
  ∃ spec,
    _get_type_spec [sample_example] = Some sample_type_spec /\
    sample_type_spec !! "obs" = Some spec /\
    shape_compatible [7; 3] (ts_shape spec) = true /\
    shape_compatible [2; 4] (ts_shape spec) = false.
Proof.
  destruct (probed_shape_admits sample_example [] sample_type_spec "obs" sample_obs [])
    as (spec & Hspec & _ & Hadm); [vm_compute; reflexivity | reflexivity |].
  exists spec. split; [vm_compute; reflexivity|]. split; [exact Hspec|]. split.
  - apply Hadm. split; reflexivity.
  - apply not_true_is_false. intros [_ Htl]%Hadm. discriminate Htl.
Defined.

(** X15.  An example decodes under the type spec probed from a sample
    record that has at least one feature as soon as, for every feature of
    the sample, it holds exactly one
    serialized tensor with the dtype, the rank and the dimensions after the
    first of the first tensor of that feature in the sample; the decoded
    record has the fields of the sample. *)
Theorem probe_then_decode sample rest example type_spec :
  _get_type_spec (sample :: rest) = Some type_spec ->
  sample ≠ ∅ ->
  (∀ key value, sample !! key = Some value ->
     ∃ data p, head value = Some data /\ example !! key = Some [p] /\
               tp_dtype p = tp_dtype data /\
               length (tp_dims p) = length (tp_dims data) /\
               tail (tp_dims p) = tail (tp_dims data)) ->
  ∃ r : Record,
    _decode_example example type_spec = Some r /\
    dom r = dom sample /\
    ∀ key p, key ∈ dom sample -> example !! key = Some [p] -> r !! key = Some (tp_value p).
Proof.
  intros Hts Hne Hall.
  assert (Hdom : dom type_spec = dom sample) by (simpl in Hts; by eapply map_try_dom).
  assert (Hts_ne : type_spec ≠ ∅).
  { intros ->. rewrite dom_empty_L in Hdom. symmetry in Hdom.
    by apply dom_empty_iff_L in Hdom. }
  set (r := omap (fun value : list TensorProto => tp_value <$> head value)
                 (filter (fun kv => kv.1 ∈ dom sample) example)).
  assert (Hr : ∀ key p, key ∈ dom sample -> example !! key = Some [p] ->
                        r !! key = Some (tp_value p)).
  { intros key p Hk Hp. unfold r. rewrite lookup_omap.
    rewrite (map_lookup_filter_Some_2 _ _ key [p]); done. }
  assert (Hrdom : dom r = dom sample).
  { apply set_eq. intros key. rewrite !elem_of_dom. split.
    - intros [t Ht]. unfold r in Ht. rewrite lookup_omap in Ht.
      destruct (filter _ example !! key) as [value|] eqn:Hf; [|done].
      apply map_lookup_filter_Some in Hf as [_ Hk]. by apply elem_of_dom in Hk.
    - intros [value Hv]. destruct (Hall key value Hv) as (data & p & _ & Hp & _).
      rewrite (Hr key p); [eauto | apply elem_of_dom; eauto | done]. }
  exists r. split; [|done]. apply decode_example_iff. split; [done|]. split; [congruence|].
  intros key spec Hs. pose proof (get_type_spec_lookup _ _ _ key Hts) as K.
  destruct (sample !! key) as [value|] eqn:Hv; [|congruence].
  destruct K as (spec' & Hf & Hs'). rewrite Hs in Hs'. injection Hs' as <-.
  destruct (Hall key value Hv) as (data & p & Hd & Hp & Hdt & Hlen & Htl).
  destruct value as [|data' more]; simplify_eq/=.
  exists p. split; [done|]. split; [done|].
  split; [by apply shape_compatible_probed|].
  apply Hr; [apply elem_of_dom; eauto | done].
Qed.

Lemma probe_then_decode_witness :
  ∃ r, _get_type_spec [sample_example] = Some sample_type_spec /\
       _decode_example sample_example sample_type_spec = Some r /\
       dom r = dom sample_example.
Proof.
  destruct (probe_then_decode sample_example [] sample_example sample_type_spec)
    as (r & Hr & Hdom & _).
  - vm_compute. reflexivity.
  - intros He. apply (f_equal (fun m : Example => m !! "obs")) in He. discriminate He.
  - intros key value Hv.
    destruct (decide (key = "obs")) as [->|Hobs].
    { injection Hv as <-. exists sample_obs, sample_obs. repeat split; reflexivity. }
    destruct (decide (key = "goal")) as [->|Hgoal].
    { injection Hv as <-. exists sample_goal, sample_goal. repeat split; reflexivity. }
    unfold sample_example in Hv.
    rewrite lookup_insert_ne, lookup_singleton_ne in Hv by done. discriminate Hv.
  - exists r. split; [vm_compute; reflexivity|]. split; [exact Hr | exact Hdom].
Defined.

End Probe.

(** * The plan of [make_dataset] without shards *)

Section PlanEdges.

Variable random_shuffle : Z -> list string -> list string.


End PlanEdges.

